(** * The tools of [mcp_math_server/server.py], embedded in Rocq

    Every tool of the server is a Python function from numbers to [str].
    The embedding keeps that shape: integers are [Z] (Python's [int] is
    unbounded), floats are IEEE-754 binary64 values of the standard
    library's [spec_float], strings are [string], and the exceptions a
    Python primitive can raise are values of an error monad.

    What the server leaves to its platform is a parameter of the model:
    the C library's [log] and [pow], complex exponentiation, and the
    printing of floats.  The interpreter is the default one: the server
    changes none of its settings, so the conversion of an [int] to text
    stops at [sys.get_int_max_str_digits()] = 4300 digits, and the C
    [long] has 64 bits.  Memory and running time are outside the model.

    The health check of the server and the prime check of its test client
    are embedded as well: a naive [datetime] is its count of microseconds,
    the clock is an argument, and the body of the JSON response is a
    record of its fields. *)

From Stdlib Require Import ZArith Znumtheory List String Ascii Bool Lia.
From Stdlib Require Import Arith.Factorial DecimalString DecimalPos DecimalZ.
From Stdlib Require Import QArith Qround Qpower.
From Stdlib Require Import Floats.SpecFloat.
Import ListNotations.

Local Open Scope string_scope.
Local Open Scope Z_scope.

(** ** The Python runtime the tools run on *)
Module Py.

(** The builtin exceptions the primitives used by the server can raise. *)
Inductive exn : Type :=
| ZeroDivisionError
| OverflowError
| ValueError.

(** A computation either returns a value or raises. *)
Inductive result (A : Type) : Type :=
| Ret (a : A)
| Raise (e : exn).

Arguments Ret {A} a.
Arguments Raise {A} e.

Definition bind {A B : Type} (c : result A) (k : A -> result B) : result B :=
  match c with
  | Ret a => k a
  | Raise e => Raise e
  end.

Notation "x <- c ;; k" := (bind c (fun x => k))
  (at level 61, c at next level, right associativity).

(** The decimal digits of an [int], with a leading minus sign. *)
Definition decimal (n : Z) : string := NilZero.string_of_int (Z.to_int n).

(** [sys.get_int_max_str_digits()], which the server leaves at its
    default. *)
Definition int_max_str_digits : Z := 4300.

(** [str(n)] for an [int], which is also how an f-string formats [{n}]:
    the decimal digits, unless there are more than [int_max_str_digits]
    of them (the sign is not counted), that is from [10^4300] on either
    way, where the conversion raises [ValueError]. *)
Definition str (n : Z) : result string :=
  if 10 ^ int_max_str_digits <=? Z.abs n then Raise ValueError
  else Ret (decimal n).

(** *** Floats: binary64 *)

Definition prec : Z := 53.
Definition emax : Z := 1024.

Definition float : Type := spec_float.

(** The float nearest to the integer [m * 2^e] (ties to even). *)
Definition float_lit (m e : Z) : float := binary_normalize prec emax m e false.

Definition zero : float := S754_zero false.
Definition one : float := Eval cbv in float_lit 1 0.
Definition two : float := Eval cbv in float_lit 2 0.
Definition three : float := Eval cbv in float_lit 3 0.
Definition eight : float := Eval cbv in float_lit 8 0.

(** The doubles nearest to [ln 2] and [ln 8]:
    [0x1.62e42fefa39efp-1] and [0x1.0a2b23f3bab73p+1]. *)
Definition ln2 : float := S754_finite false 6243314768165359 (-53).
Definition ln8 : float := S754_finite false 4682486076124019 (-51).

(** [math.e = 2.718281828459045 = 0x1.5bf0a8b145769p+1]. *)
Definition math_e : float := S754_finite false 6121026514868073 (-51).

Definition float_eq (x y : float) : bool := SFeqb x y.
Definition float_lt (x y : float) : bool := SFltb x y.
Definition float_le (x y : float) : bool := SFleb x y.

Definition float_add (x y : float) : float := SFadd prec emax x y.
Definition float_sub (x y : float) : float := SFsub prec emax x y.
Definition float_mul (x y : float) : float := SFmul prec emax x y.
Definition float_abs (x : float) : float := SFabs x.
Definition float_neg (x : float) : float := SFopp x.

(** [x / y] on floats raises on a zero divisor, of either sign. *)
Definition float_truediv (x y : float) : result float :=
  if float_eq y zero then Raise ZeroDivisionError
  else Ret (SFdiv prec emax x y).

Definition is_nan (x : float) : bool :=
  match x with S754_nan => true | _ => false end.

Definition is_inf (x : float) : bool :=
  match x with S754_infinity _ => true | _ => false end.

Definition is_finite (x : float) : bool :=
  match x with S754_zero _ | S754_finite _ _ _ => true | _ => false end.

(** The sign bit; [false] for a NaN, which carries none here. *)
Definition signbit (x : float) : bool :=
  match x with
  | S754_zero s | S754_infinity s | S754_finite s _ _ => s
  | S754_nan => false
  end.

(** C's [copysign(0.0, y)]. *)
Definition copysign_zero (y : float) : float := S754_zero (signbit y).

(** [float(n)] for an [int]: the nearest float, ties to even; an [int]
    whose nearest float would be [2^1024] or more does not convert. *)
Definition float_of_int (n : Z) : result float :=
  match binary_normalize prec emax n 0 false with
  | S754_infinity _ => Raise OverflowError
  | x => Ret x
  end.

(** [int(x)] for a float: truncation towards zero. *)
Definition int_of_float (x : float) : result Z :=
  match x with
  | S754_zero _ => Ret 0
  | S754_finite s m e => Ret (cond_Zopp s (Z.shiftl (Zpos m) e))
  | S754_infinity _ => Raise OverflowError
  | S754_nan => Raise ValueError
  end.

(** [math.sqrt] on a float: the correctly rounded root, and a domain
    error below zero. *)
Definition math_sqrt (x : float) : result float :=
  if float_lt x zero then Raise ValueError
  else Ret (SFsqrt prec emax x).

(** [math.sqrt] applied to an [int] converts its argument first. *)
Definition math_sqrt_int (n : Z) : result float :=
  x <- float_of_int n ;; math_sqrt x.

(** *** Float remainder *)

(** C's [fmod]: the exact remainder [x - y * trunc(x / y)], which takes
    the sign of [x] and is always representable.  Both mantissas are
    aligned on the smaller exponent, the remainder is taken on integers,
    and the result is shifted back to its canonical exponent. *)
Definition fmod (x y : float) : float :=
  match x, y with
  | S754_nan, _ | _, S754_nan => S754_nan
  | S754_infinity _, _ => S754_nan
  | _, S754_zero _ => S754_nan
  | S754_zero _, _ => x
  | S754_finite _ _ _, S754_infinity _ => x
  | S754_finite sx mx ex, S754_finite _ my ey =>
      let ez := Z.min ex ey in
      match Z.rem (Zpos (fst (shl_align mx ex ez)))
                  (Zpos (fst (shl_align my ey ez))) with
      | Zpos mr =>
          let '(m', e') :=
            shl_align mr ez (fexp prec emax (Zpos (digits2_pos mr) + ez)) in
          S754_finite sx m' e'
      | _ => S754_zero sx
      end
  end.

(** The value of [v % w] for [w != 0]: [fmod], moved by one [w] when its
    sign differs from the divisor's, and a zero of the divisor's sign
    when it vanishes. *)
Definition float_rem_value (v w : float) : float :=
  let md := fmod v w in
  if negb (float_eq md zero) then
    if xorb (float_lt w zero) (float_lt md zero)
    then float_add md w
    else md
  else copysign_zero w.

(** [v % w] on floats raises on a zero divisor, of either sign. *)
Definition float_rem (v w : float) : result float :=
  if float_eq w zero then Raise ZeroDivisionError
  else Ret (float_rem_value v w).

(** *** What the platform supplies *)

(** The C library's [log] and [pow], complex exponentiation and the
    shortest-digits printing of floats are not part of the server; the
    model takes them as given. *)
Record platform : Type := {
  repr_float : float -> string;
  repr_complex : float -> float -> string;
  libm_log : float -> float;
  libm_pow : float -> float -> float;
  complex_pow : float -> float -> result (float * float)
}.

(** The value of [base ** exponent] is a float or a complex number. *)
Inductive number : Type :=
| Float (x : float)
| Complex (re im : float).

Definition repr (P : platform) (v : number) : string :=
  match v with
  | Float x => repr_float P x
  | Complex re im => repr_complex P re im
  end.

(** An odd integer, as a float. *)
Definition is_odd_integer (x : float) : bool :=
  float_eq (fmod (float_abs x) two) one.

(** A whole number, as a finite float. *)
Definition is_integral (x : float) : bool :=
  float_eq (fmod x one) zero.

(** [v ** w] on floats.  The special cases are settled before the C
    library is asked: a zero base with a negative exponent raises, a
    negative base with a fractional exponent gives a complex number, and
    a result out of range raises. *)
Definition float_pow (P : platform) (v w : float) : result number :=
  if float_eq w zero then Ret (Float one)
  else if is_nan v then Ret (Float v)
  else if is_nan w then Ret (Float (if float_eq v one then one else w))
  else if is_inf w then
    let a := float_abs v in
    if float_eq a one then Ret (Float one)
    else if Bool.eqb (float_lt zero w) (float_lt one a)
         then Ret (Float (float_abs w))
         else Ret (Float zero)
  else if is_inf v then
    let odd := is_odd_integer w in
    if float_lt zero w
    then Ret (Float (if odd then v else float_abs v))
    else Ret (Float (if odd then copysign_zero v else zero))
  else if float_eq v zero then
    if float_lt w zero then Raise ZeroDivisionError
    else Ret (Float (if is_odd_integer w then v else zero))
  else if float_lt v zero && negb (is_integral w) then
    c <- complex_pow P v w ;;
    Ret (Complex (fst c) (snd c))
  else
    let negate := float_lt v zero && is_odd_integer w in
    let a := float_abs v in
    if float_eq a one then Ret (Float (if negate then float_neg one else one))
    else
      let r := libm_pow P a w in
      if is_inf r then Raise OverflowError
      else Ret (Float (if negate then float_neg r else r)).

(** [math.log] of one float: the C library's [log] on the positive
    floats, a domain error at zero and below. *)
Definition m_log (P : platform) (x : float) : result float :=
  match x with
  | S754_nan => Ret x
  | S754_infinity false => Ret x
  | S754_infinity true => Raise ValueError
  | _ => if float_lt zero x then Ret (libm_log P x) else Raise ValueError
  end.

(** [math.log(x, base)] is [log(x) / log(base)], a Python division. *)
Definition math_log (P : platform) (x base : float) : result float :=
  num <- m_log P x ;;
  den <- m_log P base ;;
  float_truediv num den.

(** The logarithm [m_log] returns where it returns: the C library's on a
    positive finite float, and the argument itself at NaN and at
    [+inf]. *)
Definition ln (P : platform) (x : float) : float :=
  match x with
  | S754_finite false _ _ => libm_log P x
  | _ => x
  end.

(** *** Integer primitives *)

(** [n % d] on [int]s with [d <> 0] is the floored remainder, which takes
    the sign of [d]: this is [Z.modulo], written [n mod d] below.  The
    server only ever divides by the literal 2 and by loop indices from 3
    upwards. *)

(** The product [1 * 2 * ... * k]. *)
Fixpoint product_upto (k : nat) : Z :=
  match k with
  | O => 1
  | S k' => Z.of_nat k * product_upto k'
  end.

(** [LONG_MAX] of the C library, a [long] of 64 bits. *)
Definition long_max : Z := 2 ^ 63 - 1.

(** [math.factorial]: defined on the non-negative integers only, and it
    refuses at once an argument that does not fit a C [long]. *)
Definition math_factorial (n : Z) : result Z :=
  if n <? 0 then Raise ValueError
  else if long_max <? n then Raise OverflowError
  else Ret (product_upto (Z.to_nat n)).

(** [math.gcd]: the non-negative greatest common divisor, 0 at (0, 0). *)
Definition math_gcd (a b : Z) : Z := Z.gcd a b.

(** [math.lcm]: 0 when an argument is 0, else [|a // gcd(a, b) * b|]. *)
Definition math_lcm (a b : Z) : Z :=
  if (a =? 0) || (b =? 0) then 0
  else Z.abs (a / math_gcd a b * b).

(** *** [range(start, stop, step)] with a positive step *)

Definition range_len (start stop step : Z) : nat :=
  Z.to_nat ((stop - start + step - 1) / step).

(** The first [i] among [start, start + step, ...] ([k] of them) at which
    [p] holds: a [for] loop whose body returns as soon as [p i]. *)
Fixpoint first_from (p : Z -> bool) (i step : Z) (k : nat) : option Z :=
  match k with
  | O => None
  | S k' => if p i then Some i else first_from p (i + step) step k'
  end.

Definition first_in_range (p : Z -> bool) (start stop step : Z) : option Z :=
  first_from p start step (range_len start stop step).

End Py.

Import Py.

(** ** The tools of [server.py] *)
Module Server.

Section Tools.

Variable P : platform.

(** *** Basic arithmetic operations *)

Definition add (a b : float) : string :=
  let r := float_add a b in
  "Result: " ++ repr_float P r.

Definition subtract (a b : float) : string :=
  let r := float_sub a b in
  "Result: " ++ repr_float P r.

Definition multiply (a b : float) : string :=
  let r := float_mul a b in
  "Result: " ++ repr_float P r.

Definition divide (a b : float) : result string :=
  if float_eq b zero then
    Ret "Error: Division by zero is not allowed"
  else
    r <- float_truediv a b ;;
    Ret ("Result: " ++ repr_float P r).

(** *** Advanced mathematical operations *)

Definition power (base exponent : float) : result string :=
  r <- float_pow P base exponent ;;
  Ret ("Result: " ++ repr P r).

Definition sqrt (x : float) : result string :=
  if float_lt x zero then
    Ret "Error: Cannot calculate square root of negative number"
  else
    r <- math_sqrt x ;;
    Ret ("Result: " ++ repr_float P r).

(** The second parameter has the default [math.e]; [None] is a call that
    leaves it out. *)
Definition logarithm (x : float) (base : option float) : result string :=
  let base := match base with Some b => b | None => math_e end in
  if float_le x zero then
    Ret "Error: Logarithm requires a positive number"
  else if float_le base zero || float_eq base one then
    Ret "Error: Logarithm base must be positive and not equal to 1"
  else
    r <- math_log P x base ;;
    Ret ("Result: " ++ repr_float P r).

Definition absolute (x : float) : string :=
  let r := float_abs x in
  "Result: " ++ repr_float P r.

Definition modulo (a b : float) : result string :=
  if float_eq b zero then
    Ret "Error: Modulo by zero is not allowed"
  else
    r <- float_rem a b ;;
    Ret ("Result: " ++ repr_float P r).

End Tools.

(** *** Number theory operations

    An f-string formats each [{n}] with [str], from left to right, when
    the [return] that holds it is reached. *)

Definition factorial (n : Z) : result string :=
  if n <? 0 then
    Ret "Error: Factorial is only defined for non-negative integers"
  else
    r <- math_factorial n ;;
    s <- str r ;;
    Ret ("Result: " ++ s).

Definition gcd (a b : Z) : result string :=
  let r := math_gcd a b in
  s <- str r ;;
  Ret ("Result: " ++ s).

Definition lcm (a b : Z) : result string :=
  let r := math_lcm a b in
  s <- str r ;;
  Ret ("Result: " ++ s).

Definition is_prime (n : Z) : result string :=
  if n <? 2 then
    s <- str n ;;
    Ret ("Error: " ++ s
         ++ " is less than 2. Primality is only defined for integers >= 2")
  else if n =? 2 then
    s <- str n ;;
    Ret (s ++ " is prime")
  else if n mod 2 =? 0 then
    s <- str n ;;
    Ret (s ++ " is not prime")
  else
    root <- math_sqrt_int n ;;
    bound <- int_of_float root ;;
    match first_in_range (fun i => n mod i =? 0) 3 (bound + 1) 2 with
    | Some i =>
        s <- str n ;;
        t <- str i ;;
        Ret (s ++ " is not prime (divisible by " ++ t ++ ")")
    | None =>
        s <- str n ;;
        Ret (s ++ " is prime")
    end.

Definition is_even (n : Z) : result string :=
  s <- str n ;;
  Ret (s ++ " is " ++ (if n mod 2 =? 0 then "even" else "odd")).

End Server.


(** ** Reading a tool's output

    A tool answers with one string.  A domain error is an answer that
    starts with ["Error:"]; a success carries the value after
    ["Result: "]. *)

Definition is_error (out : string) : bool := String.prefix "Error:" out.

(** ** Exact values

    The rational number a finite float stands for, and the remainder of
    the floored division of two rationals, [a - b * floor(a / b)]. *)

Definition Q_of_float (x : float) : Q :=
  match x with
  | S754_finite s m e => (inject_Z (cond_Zopp s (Zpos m)) * Qpower 2 e)%Q
  | _ => 0%Q
  end.

Definition floored_remainder (a b : Q) : Q :=
  (a - b * inject_Z (Qfloor (a / b)))%Q.

(** The sign a float carries, NaN carrying none. *)
Definition has_sign (s : bool) (x : float) : Prop :=
  is_nan x = false /\ signbit x = s.

(** The bound the loop of [is_prime] runs to. *)
Definition root_bound (n : Z) : result Z :=
  root <- math_sqrt_int n ;; int_of_float root.

(** A platform whose [log] is a table: right at 1, 2 and 8, and nonzero
    elsewhere. *)
Definition table_log (x : float) : float :=
  if float_eq x eight then ln8
  else if float_eq x two then ln2
  else if float_eq x one then zero
  else one.

Definition table_platform : platform := {|
  repr_float := fun x => if float_eq x three then "3.0" else "?";
  repr_complex := fun _ _ => "";
  libm_log := table_log;
  libm_pow := fun x _ => x;
  complex_pow := fun x y => Ret (x, y)
|}.

(** A shift record with nothing shifted out yet. *)
Definition exact_record (m : Z) : shr_record :=
  {| shr_m := m; shr_r := false; shr_s := false |}.

(** ** More of the runtime: string search, integer division, [timedelta] *)
Module PyMore.

(** [pat in s] on strings: [pat] occurs in [s]. *)
Fixpoint contains (pat s : string) : bool :=
  String.prefix pat s
  || match s with
     | EmptyString => false
     | String _ s' => contains pat s'
     end.

(** [s.split(c)[0]]: what comes before the first [c], all of [s] when
    there is none. *)
Fixpoint before (c : ascii) (s : string) : string :=
  match s with
  | EmptyString => EmptyString
  | String a s' => if Ascii.eqb a c then EmptyString else String a (before c s')
  end.

(** Every character of [s] satisfies [p]. *)
Fixpoint all_chars (p : ascii -> bool) (s : string) : bool :=
  match s with
  | EmptyString => true
  | String a s' => p a && all_chars p s'
  end.

(** The characters of a printed [int]: the ten digits and the minus
    sign. *)
Definition is_int_char (c : ascii) : bool :=
  let n := nat_of_ascii c in
  ((48 <=? n) && (n <=? 57))%nat || (n =? 45)%nat.

(** ["%02d" % n] and ["%06d" % n] for [n >= 0]: zeros on the left up to
    the width. *)
Definition zero_pad (width : nat) (n : Z) : string :=
  let s := decimal n in
  string_of_list_ascii (repeat "0"%char (width - String.length s)) ++ s.

(** [a / b] on [int]s: the float nearest to the quotient (ties to even),
    with the sign of the quotient also at zero; it raises on a zero
    divisor and on a quotient out of the float range. *)
Definition int_truediv (a b : Z) : result float :=
  if b =? 0 then Raise ZeroDivisionError
  else
    let s := xorb (a <? 0) (b <? 0) in
    if a =? 0 then Ret (S754_zero s)
    else
      let '(q, e, l) :=
        SFdiv_core_binary prec emax (Z.abs a) 0 (Z.abs b) 0 in
      match binary_round_aux prec emax s q e l with
      | S754_infinity _ => Raise OverflowError
      | x => Ret x
      end.

(** A [timedelta], normalised as Python keeps it:
    [0 <= seconds < 86400] and [0 <= microseconds < 10^6], the sign being
    carried by [days]. *)
Record timedelta : Type := {
  days : Z;
  seconds : Z;
  microseconds : Z
}.

(** A naive [datetime] is taken as its count of microseconds on the
    calendar; the difference of two is the [timedelta] of the difference
    of the counts, normalised by floored division. *)
Definition datetime : Type := Z.

Definition timedelta_of_microseconds (us : Z) : timedelta := {|
  days := us / 86400000000;
  seconds := (us mod 86400000000) / 1000000;
  microseconds := us mod 1000000
|}.

Definition datetime_sub (a b : datetime) : timedelta :=
  timedelta_of_microseconds (a - b).

(** [td.total_seconds()]: the microseconds of [td] over [10^6], an [int]
    division. *)
Definition total_seconds (td : timedelta) : result float :=
  int_truediv ((days td * 86400 + seconds td) * 1000000 + microseconds td)
              1000000.

(** [str(td)]: ["H:MM:SS"], after ["D day, "] or ["D days, "] when the
    days are not zero, and before [".UUUUUU"] when the microseconds are
    not zero.  The days of a [timedelta] have at most nine digits, far
    from the cap of [str], so its fields print as their [decimal]
    digits. *)
Definition str_timedelta (td : timedelta) : string :=
  let mm := seconds td / 60 in
  let ss := seconds td mod 60 in
  let hh := mm / 60 in
  let mm := mm mod 60 in
  let s := decimal hh ++ ":" ++ zero_pad 2 mm ++ ":" ++ zero_pad 2 ss in
  let s :=
    if days td =? 0 then s
    else decimal (days td) ++ " day"
         ++ (if Z.abs (days td) =? 1 then "" else "s") ++ ", " ++ s in
  if microseconds td =? 0 then s
  else s ++ "." ++ zero_pad 6 (microseconds td).

End PyMore.

Import PyMore.

(** ** The health check of [server.py] *)
Module Health.

(** The body of the JSON response. *)
Record health_status : Type := {
  status : string;
  server : string;
  uptime : string;
  uptime_seconds : Z;
  timestamp : string
}.

(** [start] is the time the module was loaded, [now] the clock when the
    uptime is taken; the timestamp is read from the clock once more and
    is given here as printed. *)
Definition health_check (start now : datetime) (now_isoformat : string)
  : result health_status :=
  let uptime := datetime_sub now start in
  total <- total_seconds uptime ;;
  uptime_seconds <- int_of_float total ;;
  let uptime_str := before "."%char (str_timedelta uptime) in
  Ret {| status := "healthy";
         server := "mcp-math-server";
         uptime := uptime_str;
         uptime_seconds := uptime_seconds;
         timestamp := now_isoformat |}.

End Health.

(** ** The checks of [test_client.py] *)
Module TestClient.

(** Test 4 accepts the text of an answer of [is_prime] when
    ["is prime" in text]. *)
Definition accepts_prime (text : string) : bool := contains "is prime" text.

End TestClient.

(** ** Notions of the statements on strings and time spans *)

Definition not_dot (c : ascii) : bool := negb (Ascii.eqb c ".").

(** A [timedelta] with its microseconds set to zero. *)
Definition without_microseconds (td : timedelta) : timedelta := {|
  days := days td;
  seconds := seconds td;
  microseconds := 0
|}.

(** ** Strings *)

Lemma append_inj_l (s a b : string) : s ++ a = s ++ b -> a = b.
Proof.
  induction s as [|c s IH]; simpl; intros H.
  - exact H.
  - injection H as H. auto.
Qed.

Lemma result_not_error (s : string) : is_error ("Result: " ++ s) = false.
Proof. reflexivity. Qed.

(** Two integers that print alike are equal. *)
Lemma decimal_inj (n m : Z) : decimal n = decimal m -> n = m.
Proof.
  unfold decimal. intros H. apply DecimalZ.to_int_inj.
  assert (N : forall z, Z.to_int z <> Decimal.Pos Decimal.Nil /\
                        Z.to_int z <> Decimal.Neg Decimal.Nil).
  { intros [|q|q]; split; simpl; try discriminate; intros E;
      injection E as E; now apply Unsigned.to_uint_nonnil in E. }
  assert (S : Some (Z.to_int n) = Some (Z.to_int m)).
  { rewrite <- (NilZero.isi (Z.to_int n)) by apply N.
    rewrite <- (NilZero.isi (Z.to_int m)) by apply N.
    now rewrite H. }
  now injection S.
Qed.

(** ** The integer primitives against their mathematical meaning *)

Lemma product_upto_fact (k : nat) : product_upto k = Z.of_nat (fact k).
Proof.
  induction k as [|k IH].
  - reflexivity.
  - change (product_upto (S k)) with (Z.of_nat (S k) * product_upto k).
    rewrite IH, <- Nat2Z.inj_mul. reflexivity.
Qed.

Lemma product_upto_pos (k : nat) : 0 < product_upto k.
Proof.
  rewrite product_upto_fact. pose proof (lt_O_fact k). lia.
Qed.

Lemma product_upto_mono (j k : nat) :
  (j <= k)%nat -> product_upto j <= product_upto k.
Proof.
  intros H. rewrite !product_upto_fact. apply Nat2Z.inj_le, fact_le, H.
Qed.

Lemma math_gcd_nonneg (a b : Z) : 0 <= math_gcd a b.
Proof. apply Z.gcd_nonneg. Qed.

(** [math.gcd] is the greatest common divisor for divisibility. *)
Lemma math_gcd_greatest (a b : Z) :
  (math_gcd a b | a) /\ (math_gcd a b | b) /\
  (forall d, (d | a) -> (d | b) -> (d | math_gcd a b)).
Proof.
  unfold math_gcd. split; [apply Z.gcd_divide_l|].
  split; [apply Z.gcd_divide_r|]. intros d. apply Z.gcd_greatest.
Qed.

Lemma math_lcm_lcm (a b : Z) : math_lcm a b = Z.lcm a b.
Proof.
  unfold math_lcm, math_gcd.
  destruct (Z.eqb_spec a 0) as [->|Ha]; simpl.
  - now rewrite Z.lcm_0_l.
  - destruct (Z.eqb_spec b 0) as [->|Hb].
    + now rewrite Z.lcm_0_r.
    + unfold Z.lcm. f_equal.
      assert (Hg : Z.gcd a b <> 0).
      { intros H0. apply Z.gcd_eq_0_l in H0. contradiction. }
      destruct (Z.gcd_divide_l a b) as [x Hx].
      destruct (Z.gcd_divide_r a b) as [y Hy].
      remember (Z.gcd a b) as g eqn:Eg. clear Eg.
      assert (Ex : a / g = x) by (rewrite Hx; now apply Z.div_mul).
      assert (Ey : b / g = y) by (rewrite Hy; now apply Z.div_mul).
      rewrite Ex, Ey, Hx, Hy. ring.
Qed.

Lemma math_lcm_nonneg (a b : Z) : 0 <= math_lcm a b.
Proof. rewrite math_lcm_lcm. apply Z.lcm_nonneg. Qed.

(** [math.lcm] is the least common multiple for divisibility. *)
Lemma math_lcm_least (a b : Z) :
  (a | math_lcm a b) /\ (b | math_lcm a b) /\
  (forall m, (a | m) -> (b | m) -> (math_lcm a b | m)).
Proof.
  rewrite math_lcm_lcm. split; [apply Z.divide_lcm_l|].
  split; [apply Z.divide_lcm_r|]. intros m. apply Z.lcm_least.
Qed.

(** ** The cap on the digits of a printed [int] *)

(** Every integer a float can hold prints: the cap lies above the float
    range. *)
Lemma cap_above_floats : 2 ^ 1024 < 10 ^ int_max_str_digits.
Proof.
  unfold int_max_str_digits.
  apply Z.lt_le_trans with (10 ^ 1024).
  - apply Z.pow_lt_mono_l; lia.
  - apply Z.pow_le_mono_r; lia.
Qed.

Lemma str_below (n : Z) :
  Z.abs n < 10 ^ int_max_str_digits -> str n = Ret (decimal n).
Proof.
  intros H. unfold str.
  destruct (Z.leb_spec (10 ^ int_max_str_digits) (Z.abs n)); [lia|reflexivity].
Qed.

(** An integer of the float range prints. *)
Lemma str_float_range (n : Z) :
  Z.abs n <= 2 ^ 1024 -> str n = Ret (decimal n).
Proof.
  intros H. apply str_below. pose proof cap_above_floats. lia.
Qed.

Lemma str_from (n : Z) :
  10 ^ int_max_str_digits <= Z.abs n -> str n = Raise ValueError.
Proof.
  intros H. unfold str.
  destruct (Z.leb_spec (10 ^ int_max_str_digits) (Z.abs n)); [reflexivity|lia].
Qed.

(** What [str] returns are the digits, of an integer below the cap. *)
Lemma str_ret (n : Z) (s : string) :
  str n = Ret s -> s = decimal n /\ Z.abs n < 10 ^ int_max_str_digits.
Proof.
  unfold str.
  destruct (Z.leb_spec (10 ^ int_max_str_digits) (Z.abs n)) as [H|H];
    [discriminate|].
  intros E. injection E as <-. now split.
Qed.

(** [str] raises nothing but [ValueError]. *)
Lemma str_raise (n : Z) (e : exn) : str n = Raise e -> e = ValueError.
Proof.
  unfold str. destruct (10 ^ int_max_str_digits <=? Z.abs n);
    [now intros [= <-]|discriminate].
Qed.

Lemma Ret_inj {A : Type} (a b : A) : Ret a = Ret b -> a = b.
Proof. now intros [= ->]. Qed.

(** ** The number-theory tools *)

(** *** [is_even] *)

Lemma is_even_below (n : Z) :
  Z.abs n < 10 ^ int_max_str_digits ->
  Server.is_even n
  = Ret (decimal n ++ " is " ++ (if n mod 2 =? 0 then "even" else "odd")).
Proof. intros H. unfold Server.is_even. now rewrite str_below. Qed.



(** *** [gcd] and [lcm] *)

Lemma gcd_below (a b : Z) :
  Z.gcd a b < 10 ^ int_max_str_digits ->
  Server.gcd a b = Ret ("Result: " ++ decimal (Z.gcd a b)).
Proof.
  intros H. unfold Server.gcd, math_gcd.
  pose proof (Z.gcd_nonneg a b). now rewrite str_below by lia.
Qed.

Lemma gcd_from (a b : Z) :
  10 ^ int_max_str_digits <= Z.gcd a b -> Server.gcd a b = Raise ValueError.
Proof.
  intros H. unfold Server.gcd, math_gcd.
  pose proof (Z.gcd_nonneg a b). now rewrite str_from by lia.
Qed.

Lemma lcm_below (a b : Z) :
  Z.lcm a b < 10 ^ int_max_str_digits ->
  Server.lcm a b = Ret ("Result: " ++ decimal (Z.lcm a b)).
Proof.
  intros H. unfold Server.lcm. rewrite math_lcm_lcm.
  pose proof (Z.lcm_nonneg a b). now rewrite str_below by lia.
Qed.

Lemma lcm_from (a b : Z) :
  10 ^ int_max_str_digits <= Z.lcm a b -> Server.lcm a b = Raise ValueError.
Proof.
  intros H. unfold Server.lcm. rewrite math_lcm_lcm.
  pose proof (Z.lcm_nonneg a b). now rewrite str_from by lia.
Qed.

(** What [gcd] and [lcm] return is the printed value of [math.gcd] and
    [math.lcm]. *)
Lemma gcd_ret (a b g : Z) :
  Server.gcd a b = Ret ("Result: " ++ decimal g) -> g = Z.gcd a b.
Proof.
  unfold Server.gcd, math_gcd.
  destruct (str (Z.gcd a b)) as [s|] eqn:E; [|discriminate].
  apply str_ret in E. destruct E as [-> _]. cbn [bind]. intros H.
  now apply Ret_inj, (append_inj_l "Result: "), decimal_inj in H.
Qed.

Lemma lcm_ret (a b l : Z) :
  Server.lcm a b = Ret ("Result: " ++ decimal l) -> l = Z.lcm a b.
Proof.
  unfold Server.lcm. rewrite math_lcm_lcm.
  destruct (str (Z.lcm a b)) as [s|] eqn:E; [|discriminate].
  apply str_ret in E. destruct E as [-> _]. cbn [bind]. intros H.
  now apply Ret_inj, (append_inj_l "Result: "), decimal_inj in H.
Qed.

(** Consecutive integers have no common divisor. *)
Lemma lcm_consecutive (m : Z) : 0 <= m -> Z.lcm (m + 1) m = (m + 1) * m.
Proof.
  intros Hm. unfold Z.lcm.
  assert (G : Z.gcd (m + 1) m = 1).
  { rewrite Z.gcd_comm.
    replace (m + 1) with (1 + 1 * m) by ring.
    now rewrite Z.gcd_add_mult_diag_r, Z.gcd_1_r. }
  rewrite G, Z.div_1_r. apply Z.abs_eq. nia.
Qed.

(** C8. [gcd] and [lcm] are not total: the f-string formats the value
    with [str], which raises [ValueError] when it has more than 4300
    digits, as the 4401 digits of [lcm(10**2200 + 1, 10**2200)].  A
    value below that size is answered as a result, never as an error: it
    is the non-negative greatest common divisor, and least common
    multiple; [gcd(a, 0)] is then [|a|], [gcd(48, 18)] is 6 and
    [lcm(4, 6)] is 12. *)
Theorem lcm_raises_on_long_result :
  Server.lcm (10 ^ 2200 + 1) (10 ^ 2200) = Raise ValueError /\
  (forall a b : Z,
      10 ^ int_max_str_digits <= Z.lcm a b ->
      Server.lcm a b = Raise ValueError) /\
  (forall a b : Z,
      10 ^ int_max_str_digits <= Z.gcd a b ->
      Server.gcd a b = Raise ValueError) /\
  (forall a b : Z,
      Z.lcm a b < 10 ^ int_max_str_digits ->
      Server.lcm a b = Ret ("Result: " ++ decimal (Z.lcm a b)) /\
      0 <= Z.lcm a b) /\
  (forall a b : Z,
      Z.gcd a b < 10 ^ int_max_str_digits ->
      Server.gcd a b = Ret ("Result: " ++ decimal (Z.gcd a b)) /\
      0 <= Z.gcd a b) /\
  (forall a : Z,
      Z.abs a < 10 ^ int_max_str_digits ->
      Server.gcd a 0 = Ret ("Result: " ++ decimal (Z.abs a))) /\
  Server.gcd 48 18 = Ret "Result: 6" /\
  Server.lcm 4 6 = Ret "Result: 12".
Proof.
  split; [|split; [|split; [|split; [|split; [|split; [|split]]]]]].
  - apply lcm_from. rewrite lcm_consecutive by (apply Z.pow_nonneg; lia).
    unfold int_max_str_digits.
    apply Z.le_trans with (10 ^ 2200 * 10 ^ 2200).
    + rewrite <- Z.pow_add_r by lia. apply Z.pow_le_mono_r; lia.
    + assert (P : 0 < 10 ^ 2200) by (apply Z.pow_pos_nonneg; lia).
      remember (10 ^ 2200) as t eqn:Et. clear Et. nia.
  - apply lcm_from.
  - apply gcd_from.
  - intros a b H. split; [now apply lcm_below|apply Z.lcm_nonneg].
  - intros a b H. split; [now apply gcd_below|apply Z.gcd_nonneg].
  - intros a H. rewrite gcd_below; rewrite Z.gcd_0_r; [reflexivity|exact H].
  - rewrite gcd_below; [reflexivity|].
    change (Z.gcd 48 18) with 6. pose proof cap_above_floats. lia.
  - rewrite lcm_below; [reflexivity|].
    change (Z.lcm 4 6) with 12. pose proof cap_above_floats. lia.
Qed.

(** C10. At the zero edge cases [gcd(0, 0)] answers 0, and [lcm(a, 0)] and
    [lcm(0, a)] answer 0 for every integer [a]: a result, not an error and
    not a positive integer. *)
Theorem gcd_lcm_zero_cases :
  Server.gcd 0 0 = Ret "Result: 0" /\
  (forall a : Z, Server.lcm a 0 = Ret "Result: 0") /\
  (forall a : Z, Server.lcm 0 a = Ret "Result: 0").
Proof.
  assert (Z0 : str 0 = Ret "0") by (now apply str_float_range).
  split; [|split]; [|intros a..]; unfold Server.gcd, Server.lcm, math_gcd.
  - change (Z.gcd 0 0) with 0. now rewrite Z0.
  - rewrite math_lcm_lcm, Z.lcm_0_r. now rewrite Z0.
  - rewrite math_lcm_lcm, Z.lcm_0_l. now rewrite Z0.
Qed.

(** *** [factorial] *)

(** The largest factorial of at most 4300 digits is that of 1558. *)
Lemma factorial_digits :
  product_upto (Z.to_nat 1558) < 10 ^ int_max_str_digits
  /\ 10 ^ int_max_str_digits <= product_upto (Z.to_nat 1559).
Proof.
  assert (B : (let p := product_upto (Z.to_nat 1558) in
               let c := 10 ^ int_max_str_digits in
               (p <? c) && (c <=? 1559 * p)) = true)
    by (vm_compute; reflexivity).
  cbv zeta in B. apply andb_prop in B. destruct B as [B1 B2].
  apply Z.ltb_lt in B1. apply Z.leb_le in B2.
  split; [exact B1|].
  replace (Z.to_nat 1559) with (S (Z.to_nat 1558)) by lia.
  change (product_upto (S (Z.to_nat 1558)))
    with (Z.of_nat (S (Z.to_nat 1558)) * product_upto (Z.to_nat 1558)).
  replace (Z.of_nat (S (Z.to_nat 1558))) with 1559 by lia.
  exact B2.
Qed.

Lemma factorial_below (n : Z) :
  0 <= n <= 1558 ->
  Server.factorial n = Ret ("Result: " ++ decimal (product_upto (Z.to_nat n))).
Proof.
  intros Hn. unfold Server.factorial, math_factorial.
  destruct (Z.ltb_spec n 0); [lia|].
  destruct (Z.ltb_spec long_max n) as [L|_];
    [unfold long_max in L; lia|].
  cbn [bind]. rewrite str_below; [reflexivity|].
  pose proof (product_upto_pos (Z.to_nat n)).
  pose proof (product_upto_mono (Z.to_nat n) (Z.to_nat 1558) ltac:(lia)).
  destruct factorial_digits as [D _]. lia.
Qed.

Lemma factorial_from (n : Z) :
  1559 <= n <= long_max -> Server.factorial n = Raise ValueError.
Proof.
  intros Hn. unfold Server.factorial, math_factorial.
  destruct (Z.ltb_spec n 0); [lia|].
  destruct (Z.ltb_spec long_max n); [lia|].
  cbn [bind]. rewrite str_from; [reflexivity|].
  pose proof (product_upto_mono (Z.to_nat 1559) (Z.to_nat n) ltac:(lia)).
  destruct factorial_digits as [_ D]. lia.
Qed.

(** What [factorial] returns as a result is the product up to [n]. *)
Lemma factorial_ret (n v : Z) :
  0 <= n ->
  Server.factorial n = Ret ("Result: " ++ decimal v) ->
  v = product_upto (Z.to_nat n).
Proof.
  intros Hn. unfold Server.factorial, math_factorial.
  destruct (Z.ltb_spec n 0) as [|_]; [lia|].
  destruct (long_max <? n); [discriminate|]. cbn [bind].
  destruct (str (product_upto (Z.to_nat n))) as [s|] eqn:E; [|discriminate].
  apply str_ret in E. destruct E as [-> _]. cbn [bind]. intros H.
  now apply Ret_inj, (append_inj_l "Result: "), decimal_inj in H.
Qed.

(** C7. [factorial] does not answer every [n >= 0]: the f-string
    formats [n!] with [str], which raises [ValueError] when it has more
    than 4300 digits, that is from [n = 1559] on, and [math.factorial]
    itself raises [OverflowError] above the largest C [long].  It
    answers with the domain error exactly when [n < 0], and with the
    exact [n!] for [0 <= n <= 1558]; [factorial(0)] is 1, [factorial(5)]
    is 120, and the values it answers with never decrease from [n] to
    [n + 1]. *)
Theorem factorial_raises_from_1559 :
  Server.factorial 1559 = Raise ValueError /\
  (forall n : Z,
      1559 <= n <= long_max -> Server.factorial n = Raise ValueError) /\
  (forall n : Z, long_max < n -> Server.factorial n = Raise OverflowError) /\
  (forall n : Z,
      0 <= n <= 1558 ->
      Server.factorial n
      = Ret ("Result: " ++ decimal (Z.of_nat (fact (Z.to_nat n))))) /\
  (forall n : Z,
      n < 0 ->
      Server.factorial n
      = Ret "Error: Factorial is only defined for non-negative integers") /\
  Server.factorial 0 = Ret "Result: 1" /\
  Server.factorial 5 = Ret "Result: 120" /\
  (forall n v w : Z,
      0 <= n ->
      Server.factorial n = Ret ("Result: " ++ decimal v) ->
      Server.factorial (n + 1) = Ret ("Result: " ++ decimal w) ->
      0 < v <= w).
Proof.
  split; [|split; [|split; [|split; [|split; [|split; [|split]]]]]].
  - apply factorial_from. unfold long_max. lia.
  - apply factorial_from.
  - intros n Hn. unfold Server.factorial, math_factorial.
    destruct (Z.ltb_spec n 0); [unfold long_max in Hn; lia|].
    destruct (Z.ltb_spec long_max n); [reflexivity|lia].
  - intros n Hn. rewrite factorial_below by exact Hn.
    now rewrite product_upto_fact.
  - intros n Hn. unfold Server.factorial.
    destruct (Z.ltb_spec n 0); [reflexivity|lia].
  - now rewrite factorial_below by lia.
  - now rewrite factorial_below by lia.
  - intros n v w Hn Hv Hw.
    apply factorial_ret in Hv; [|lia]. apply factorial_ret in Hw; [|lia].
    subst v w.
    split; [apply product_upto_pos|apply product_upto_mono; lia].
Qed.

(** ** Binary64 rounding

    Facts about the standard library's rounding functions that the float
    tools rest on. *)

(** Shifting a mantissa left multiplies it by a power of two. *)
Lemma iter_xO_pow (m d : positive) :
  Zpos (Pos.iter xO m d) = Zpos m * 2 ^ Zpos d.
Proof.
  induction d as [|d IH] using Pos.peano_ind.
  - simpl. lia.
  - rewrite Pos.iter_succ, Pos2Z.inj_succ, Z.pow_succ_r by lia.
    rewrite Pos2Z.inj_xO, IH. ring.
Qed.

(** Aligning a mantissa on an exponent never raises the exponent, keeps
    the value, and reaches the target when the target is not above. *)
Lemma shl_align_spec (m : positive) (e e' : Z) :
  snd (shl_align m e e') <= e /\
  Zpos (fst (shl_align m e e')) = Zpos m * 2 ^ (e - snd (shl_align m e e')) /\
  (e' <= e -> snd (shl_align m e e') = e').
Proof.
  unfold shl_align. destruct (e' - e) as [|d|d] eqn:E; cbn [fst snd].
  - rewrite Z.sub_diag, Z.pow_0_r. lia.
  - rewrite Z.sub_diag, Z.pow_0_r. lia.
  - rewrite <- Pos2Z.opp_pos in E.
    split; [lia|]. split; [|reflexivity].
    rewrite iter_xO_pow. f_equal. f_equal. lia.
Qed.

Lemma shl_align_noshift (m : positive) (e e' : Z) :
  e <= e' -> shl_align m e e' = (m, e).
Proof.
  intros H. unfold shl_align.
  destruct (e' - e) as [|d|d] eqn:E; try reflexivity.
  rewrite <- Pos2Z.opp_pos in E. lia.
Qed.

Lemma shl_align_shift (m : positive) (e e' : Z) :
  e' <= e ->
  exists m' : positive,
    shl_align m e e' = (m', e') /\ Zpos m' = Zpos m * 2 ^ (e - e').
Proof.
  intros H. destruct (shl_align_spec m e e') as (_ & Hv & Hs).
  specialize (Hs H).
  destruct (shl_align m e e') as [m' e'']. cbn [fst snd] in Hv, Hs.
  subst e''. now exists m'.
Qed.

(** [digits2_pos p] is the bit length of [p]. *)
Lemma digits2_pos_bounds (p : positive) :
  2 ^ (Zpos (digits2_pos p) - 1) <= Zpos p < 2 ^ Zpos (digits2_pos p).
Proof.
  induction p as [p IH|p IH|]; simpl digits2_pos.
  - rewrite Pos2Z.inj_succ. change (Zpos p~1) with (2 * Zpos p + 1).
    replace (Z.succ (Zpos (digits2_pos p)) - 1)
      with (Z.succ (Zpos (digits2_pos p) - 1)) by lia.
    rewrite !Z.pow_succ_r by lia. lia.
  - rewrite Pos2Z.inj_succ. change (Zpos p~0) with (2 * Zpos p).
    replace (Z.succ (Zpos (digits2_pos p)) - 1)
      with (Z.succ (Zpos (digits2_pos p) - 1)) by lia.
    rewrite !Z.pow_succ_r by lia. lia.
  - simpl. lia.
Qed.

Lemma digits2_pos_unique (p : positive) (D : Z) :
  2 ^ (D - 1) <= Zpos p < 2 ^ D -> Zpos (digits2_pos p) = D.
Proof.
  intros H. pose proof (digits2_pos_bounds p) as B.
  remember (Zpos (digits2_pos p)) as D' eqn:E.
  assert (0 < D') by lia.
  assert (0 < D).
  { destruct (Z_lt_le_dec 0 D) as [|Hle]; [assumption|].
    destruct (Z.eq_dec D 0) as [->|]; [rewrite Z.pow_0_r in H; lia|].
    rewrite (Z.pow_neg_r 2 D) in H by lia. lia. }
  assert (D' - 1 < D).
  { apply (Z.pow_lt_mono_r_iff 2); lia. }
  assert (D - 1 < D').
  { apply (Z.pow_lt_mono_r_iff 2); lia. }
  lia.
Qed.

Lemma digits2_pos_shift (m mj : positive) (j : Z) :
  0 <= j -> Zpos mj = Zpos m * 2 ^ j ->
  Zpos (digits2_pos mj) = Zpos (digits2_pos m) + j.
Proof.
  intros Hj Hm. pose proof (digits2_pos_bounds m) as B.
  apply digits2_pos_unique. rewrite Hm.
  replace (Zpos (digits2_pos m) + j - 1) with (Zpos (digits2_pos m) - 1 + j)
    by lia.
  rewrite !Z.pow_add_r by lia.
  assert (0 < 2 ^ j) by (apply Z.pow_pos_nonneg; lia).
  split; [apply Z.mul_le_mono_nonneg_r|apply Z.mul_lt_mono_pos_r]; lia.
Qed.

Lemma digits2_pos_mono (p q : positive) :
  Zpos p <= Zpos q -> Zpos (digits2_pos p) <= Zpos (digits2_pos q).
Proof.
  intros H. pose proof (digits2_pos_bounds p). pose proof (digits2_pos_bounds q).
  assert (Zpos (digits2_pos p) - 1 < Zpos (digits2_pos q)); [|lia].
  apply (Z.pow_lt_mono_r_iff 2); lia.
Qed.

Lemma fexp_normal (x : Z) : -1021 <= x -> fexp prec emax x = x - 53.
Proof. intros H. unfold fexp, emin, prec, emax. lia. Qed.

Lemma fexp_mono (x y : Z) : x <= y -> fexp prec emax x <= fexp prec emax y.
Proof. unfold fexp. lia. Qed.

Lemma valid_finite (s : bool) (m : positive) (e : Z) :
  valid_binary prec emax (S754_finite s m e) = true ->
  fexp prec emax (Zpos (digits2_pos m) + e) = e /\ e <= emax - prec.
Proof.
  unfold valid_binary, bounded, canonical_mantissa.
  intros H. apply andb_true_iff in H. destruct H as [H1 H2].
  split; [now apply Z.eqb_eq|now apply Z.leb_le].
Qed.

Lemma iter_pos_preserves {A : Type} (I : A -> Prop) (f : A -> A) :
  (forall x, I x -> I (f x)) ->
  forall (p : positive) (x : A), I x -> I (iter_pos f p x).
Proof.
  intros Hf. induction p as [p IH|p IH|]; intros x Hx; simpl; auto.
Qed.

Lemma shr_1_nonneg (mrs : shr_record) :
  0 <= shr_m mrs -> 0 <= shr_m (shr_1 mrs).
Proof.
  destruct mrs as [m r s]. simpl.
  destruct m as [|[p|p|]|[p|p|]]; simpl; intros H; try lia;
    exfalso; apply H; reflexivity.
Qed.

Lemma shr_fexp_nonneg (m e : Z) (l : location) :
  0 <= m -> 0 <= shr_m (fst (shr_fexp prec emax m e l)).
Proof.
  intros Hm. unfold shr_fexp, shr.
  assert (H0 : 0 <= shr_m (shr_record_of_loc m l)).
  { destruct l as [|[| |]]; exact Hm. }
  destruct (fexp prec emax (Zdigits2 m + e) - e); simpl; try exact H0.
  now apply (iter_pos_preserves (fun r => 0 <= shr_m r)), H0; apply shr_1_nonneg.
Qed.

Lemma round_nearest_even_nonneg (m : Z) (l : location) :
  0 <= m -> 0 <= round_nearest_even m l.
Proof.
  intros Hm. destruct l as [|[| |]]; simpl; try lia.
  destruct (Z.even m); lia.
Qed.

(** Rounding keeps the sign it is given. *)
Lemma binary_round_aux_sign (s : bool) (m e : Z) (l : location) :
  0 <= m -> has_sign s (binary_round_aux prec emax s m e l).
Proof.
  intros Hm. unfold binary_round_aux.
  pose proof (shr_fexp_nonneg m e l Hm) as H1.
  destruct (shr_fexp prec emax m e l) as [mrs' e'].
  simpl fst in H1.
  pose proof (shr_fexp_nonneg _ e' loc_Exact
                (round_nearest_even_nonneg _ (loc_of_shr_record mrs') H1)) as H2.
  destruct (shr_fexp prec emax _ e' loc_Exact) as [mrs'' e''].
  simpl fst in H2.
  destruct (shr_m mrs'') as [|q|q]; [split; reflexivity| |lia].
  destruct (e'' <=? emax - prec); split; reflexivity.
Qed.

Lemma binary_round_sign (s : bool) (m : positive) (e : Z) :
  has_sign s (binary_round prec emax s m e).
Proof.
  unfold binary_round.
  destruct (shl_align m e _) as [mz ez].
  apply binary_round_aux_sign. lia.
Qed.

Lemma binary_normalize_sign (s : bool) (k e : Z) (sz : bool) :
  0 < k -> has_sign s (binary_normalize prec emax (cond_Zopp s k) e sz).
Proof.
  intros Hk. destruct k as [|k|k]; try lia.
  destruct s; simpl; apply binary_round_sign.
Qed.

Lemma binary_normalize_signed (s : bool) (k : positive) (e : Z) (sz : bool) :
  binary_normalize prec emax (cond_Zopp s (Zpos k)) e sz
  = binary_round prec emax s k e.
Proof. destruct s; reflexivity. Qed.

(** Rounding a mantissa that already sits on its canonical exponent
    only applies the pending round-to-nearest step. *)
Lemma binary_round_aux_canonical (s : bool) (q : positive) (e : Z) (l : location) :
  fexp prec emax (Zpos (digits2_pos q) + e) = e ->
  fexp prec emax (Zdigits2 (round_nearest_even (Zpos q) l) + e) = e ->
  e <= emax - prec ->
  binary_round_aux prec emax s (Zpos q) e l
  = S754_finite s (Z.to_pos (round_nearest_even (Zpos q) l)) e.
Proof.
  intros C1 C2 He.
  unfold binary_round_aux, shr_fexp.
  cbn [Zdigits2]. rewrite C1, Z.sub_diag. cbn [shr].
  assert (R : forall m, l = l -> shr_m (shr_record_of_loc m l) = m
              /\ loc_of_shr_record (shr_record_of_loc m l) = l).
  { intros m _. destruct l as [|[| |]]; split; reflexivity. }
  destruct (R (Zpos q) eq_refl) as [-> ->].
  rewrite C2, Z.sub_diag. cbn [shr shr_record_of_loc shr_m].
  assert (P : 0 < round_nearest_even (Zpos q) l).
  { destruct l as [|[| |]]; simpl; try lia. destruct q; simpl; lia. }
  destruct (round_nearest_even (Zpos q) l) as [|q'|q']; try lia.
  destruct (Z.leb_spec e (emax - prec)); [reflexivity|lia].
Qed.

Lemma binary_round_canonical (s : bool) (m : positive) (e : Z) :
  fexp prec emax (Zpos (digits2_pos m) + e) = e -> e <= emax - prec ->
  binary_round prec emax s m e = S754_finite s m e.
Proof.
  intros C B. unfold binary_round. rewrite C.
  rewrite shl_align_noshift by lia.
  rewrite binary_round_aux_canonical; try assumption; reflexivity.
Qed.

Lemma iter_pos_nat {A : Type} (f : A -> A) (p : positive) (x : A) :
  iter_pos f p x = Nat.iter (Pos.to_nat p) f x.
Proof.
  revert x. induction p as [p IH|p IH|]; intros x; simpl iter_pos.
  - rewrite !IH, Pos2Nat.inj_xI.
    replace (S (2 * Pos.to_nat p))%nat with (Pos.to_nat p + S (Pos.to_nat p))%nat by lia.
    rewrite Nat.iter_add. f_equal. now rewrite Nat.iter_succ_r.
  - rewrite !IH, Pos2Nat.inj_xO.
    replace (2 * Pos.to_nat p)%nat with (Pos.to_nat p + Pos.to_nat p)%nat by lia.
    now rewrite Nat.iter_add.
  - reflexivity.
Qed.

Lemma shr_1_double (m : Z) : shr_1 (exact_record (2 * m)) = exact_record m.
Proof. destruct m as [|p|p]; reflexivity. Qed.

Lemma shr_iter_exact (k : nat) (m : Z) :
  Nat.iter k shr_1 (exact_record (m * 2 ^ Z.of_nat k)) = exact_record m.
Proof.
  revert m. induction k as [|k IH]; intros m.
  - simpl. now rewrite Z.mul_1_r.
  - rewrite Nat.iter_succ_r, Nat2Z.inj_succ, Z.pow_succ_r by lia.
    replace (m * (2 * 2 ^ Z.of_nat k)) with (2 * (m * 2 ^ Z.of_nat k)) by ring.
    rewrite shr_1_double. apply IH.
Qed.

(** Shifting right by [t + j] a mantissa that ends in [j] zero bits. *)
Lemma shr_strip (m e t j : Z) :
  0 <= j -> 0 <= t ->
  shr (exact_record (m * 2 ^ j)) (e - j) (t + j) = shr (exact_record m) e t.
Proof.
  intros Hj Ht. unfold shr.
  destruct (Z.eq_dec j 0) as [->|Nj].
  { rewrite Z.pow_0_r, Z.mul_1_r, Z.sub_0_r, Z.add_0_r. reflexivity. }
  destruct (t + j) as [|p|p] eqn:Ep; try lia.
  rewrite iter_pos_nat.
  replace (Pos.to_nat p) with (Z.to_nat t + Z.to_nat j)%nat by lia.
  rewrite Nat.iter_add.
  replace (2 ^ j) with (2 ^ Z.of_nat (Z.to_nat j)) by (f_equal; lia).
  rewrite shr_iter_exact.
  destruct t as [|q|q]; try lia.
  - simpl Z.to_nat. simpl Nat.iter. f_equal. lia.
  - rewrite iter_pos_nat. simpl Z.to_nat. f_equal. lia.
Qed.

Lemma binary_round_aux_shr (s : bool) (m1 m2 : Z) (e1 e2 : Z) (l1 l2 : location) :
  shr_fexp prec emax m1 e1 l1 = shr_fexp prec emax m2 e2 l2 ->
  binary_round_aux prec emax s m1 e1 l1 = binary_round_aux prec emax s m2 e2 l2.
Proof. intros H. unfold binary_round_aux. now rewrite H. Qed.

(** Rounding depends on the value only: trailing zero bits of the
    mantissa can be traded for exponent. *)
Lemma binary_round_shift (s : bool) (m mj : positive) (e j : Z) :
  0 <= j -> Zpos mj = Zpos m * 2 ^ j ->
  binary_round prec emax s mj (e - j) = binary_round prec emax s m e.
Proof.
  intros Hj Hm. unfold binary_round.
  rewrite (digits2_pos_shift m mj j Hj Hm).
  replace (Zpos (digits2_pos m) + j + (e - j)) with (Zpos (digits2_pos m) + e)
    by lia.
  remember (fexp prec emax (Zpos (digits2_pos m) + e)) as f eqn:Ef.
  destruct (Z_lt_le_dec f (e - j)) as [Hlt|Hge].
  - (* both mantissas are shifted left onto [f] *)
    destruct (shl_align_shift mj (e - j) f ltac:(lia)) as (a & -> & Ha).
    destruct (shl_align_shift m e f ltac:(lia)) as (b & -> & Hb).
    replace a with b; [reflexivity|].
    apply Pos2Z.inj. rewrite Ha, Hb, Hm, <- Z.mul_assoc, <- Z.pow_add_r by lia.
    f_equal. f_equal. lia.
  - rewrite (shl_align_noshift mj (e - j) f Hge).
    destruct (Z_lt_le_dec f e) as [Hlt|Hge'].
    + destruct (shl_align_shift m e f ltac:(lia)) as (b & -> & Hb).
      apply binary_round_aux_shr. unfold shr_fexp. cbn [Zdigits2].
      rewrite (digits2_pos_shift m mj j Hj Hm).
      rewrite (digits2_pos_shift m b (e - f) ltac:(lia) Hb).
      replace (Zpos (digits2_pos m) + j + (e - j)) with (Zpos (digits2_pos m) + e)
        by lia.
      replace (Zpos (digits2_pos m) + (e - f) + f) with (Zpos (digits2_pos m) + e)
        by lia.
      rewrite <- Ef, Z.sub_diag.
      change (shr_record_of_loc (Zpos mj) loc_Exact) with (exact_record (Zpos mj)).
      change (shr_record_of_loc (Zpos b) loc_Exact) with (exact_record (Zpos b)).
      replace (Zpos mj) with (Zpos b * 2 ^ (f - (e - j))).
      * pose proof (shr_strip (Zpos b) f 0 (f - (e - j)) ltac:(lia) ltac:(lia)) as Hs.
        replace (f - (f - (e - j))) with (e - j) in Hs by lia.
        rewrite Z.add_0_l in Hs. exact Hs.
      * rewrite Hb, Hm, <- Z.mul_assoc, <- Z.pow_add_r by lia.
        f_equal. f_equal. lia.
    + rewrite (shl_align_noshift m e f Hge').
      apply binary_round_aux_shr. unfold shr_fexp. cbn [Zdigits2].
      rewrite (digits2_pos_shift m mj j Hj Hm).
      replace (Zpos (digits2_pos m) + j + (e - j)) with (Zpos (digits2_pos m) + e)
        by lia.
      rewrite <- Ef.
      change (shr_record_of_loc (Zpos mj) loc_Exact) with (exact_record (Zpos mj)).
      change (shr_record_of_loc (Zpos m) loc_Exact) with (exact_record (Zpos m)).
      rewrite Hm.
      replace (f - (e - j)) with ((f - e) + j) by lia.
      apply shr_strip; lia.
Qed.

(** One step of the right shift halves the mantissa. *)
Lemma shr_1_half (r : shr_record) :
  0 <= shr_m r -> shr_m (shr_1 r) = shr_m r / 2.
Proof.
  destruct r as [m rb sb]. cbn [shr_m]. intros Hm.
  destruct m as [|[p|p|]|p]; cbn [shr_1 shr_m]; try reflexivity.
  - rewrite Pos2Z.inj_xI.
    apply (Z.div_unique (2 * Zpos p + 1) 2 (Zpos p) 1); lia.
  - rewrite Pos2Z.inj_xO.
    apply (Z.div_unique (2 * Zpos p) 2 (Zpos p) 0); lia.
  - exfalso. apply Hm. reflexivity.
Qed.

Lemma shr_iter_half (k : nat) (r : shr_record) :
  0 <= shr_m r ->
  shr_m (Nat.iter k shr_1 r) = shr_m r / 2 ^ Z.of_nat k.
Proof.
  intros Hr. induction k as [|k IH].
  - simpl. now rewrite Z.div_1_r.
  - change (Nat.iter (S k) shr_1 r) with (shr_1 (Nat.iter k shr_1 r)).
    rewrite shr_1_half.
    + rewrite IH, Nat2Z.inj_succ, Z.pow_succ_r by lia.
      rewrite Z.div_div by (try apply Z.pow_pos_nonneg; lia).
      f_equal. ring.
    + rewrite IH. apply Z.div_pos; [exact Hr|apply Z.pow_pos_nonneg; lia].
Qed.

(** Shifting a mantissa of 53 bits or more onto its canonical exponent
    leaves its 53 leading bits. *)
Lemma shr_fexp_leading (m : positive) (e : Z) (l : location) :
  53 <= Zpos (digits2_pos m) ->
  -1021 <= Zpos (digits2_pos m) + e ->
  let r := shr_fexp prec emax (Zpos m) e l in
  snd r = e + (Zpos (digits2_pos m) - 53) /\
  2 ^ 52 <= shr_m (fst r) < 2 ^ 53.
Proof.
  intros HD He. pose proof (digits2_pos_bounds m) as B.
  remember (Zpos (digits2_pos m)) as D eqn:ED.
  unfold shr_fexp. cbn [Zdigits2]. rewrite <- ED, fexp_normal by lia.
  replace (D + e - 53 - e) with (D - 53) by lia.
  assert (M0 : shr_m (shr_record_of_loc (Zpos m) l) = Zpos m)
    by (destruct l as [|[| |]]; reflexivity).
  destruct (D - 53) as [|k|k] eqn:Ek; try lia; cbn [shr fst snd].
  - rewrite M0. replace D with 53 in B by lia. simpl Z.sub in B. lia.
  - split; [lia|].
    rewrite iter_pos_nat, shr_iter_half by (rewrite M0; lia).
    rewrite M0, positive_nat_Z, <- Ek.
    assert (P : 0 < 2 ^ (D - 53)) by (apply Z.pow_pos_nonneg; lia).
    split.
    + apply Z.div_le_lower_bound; [exact P|].
      rewrite Z.mul_comm, <- Z.pow_add_r by lia.
      replace (52 + (D - 53)) with (D - 1) by lia. lia.
    + apply Z.div_lt_upper_bound; [exact P|].
      rewrite <- Z.pow_add_r by lia.
      replace (D - 53 + 53) with D by lia. lia.
Qed.

(** An integer from [2^1024] upwards rounds to infinity. *)
Lemma float_of_int_overflow (n : Z) :
  2 ^ 1024 <= n -> float_of_int n = Raise OverflowError.
Proof.
  intros Hn. destruct n as [|p|p]; try lia.
  pose proof (digits2_pos_bounds p) as B.
  assert (HD : 1025 <= Zpos (digits2_pos p)).
  { assert (1024 < Zpos (digits2_pos p)); [|lia].
    apply (Z.pow_lt_mono_r_iff 2); lia. }
  unfold float_of_int, binary_normalize, binary_round.
  rewrite Z.add_0_r, fexp_normal by lia.
  rewrite shl_align_noshift by lia.
  unfold binary_round_aux.
  destruct (shr_fexp_leading p 0 loc_Exact ltac:(lia) ltac:(lia)) as [E1 M1].
  destruct (shr_fexp prec emax (Zpos p) 0 loc_Exact) as [mrs' e'].
  cbn [fst snd] in E1, M1.
  assert (M2 : 2 ^ 52 <= round_nearest_even (shr_m mrs') (loc_of_shr_record mrs')).
  { destruct (loc_of_shr_record mrs') as [|[| |]]; cbn [round_nearest_even];
      try lia. destruct (Z.even (shr_m mrs')); lia. }
  destruct (round_nearest_even (shr_m mrs') (loc_of_shr_record mrs'))
    as [|m2|m2] eqn:E2; try lia.
  assert (D2 : 53 <= Zpos (digits2_pos m2)).
  { pose proof (digits2_pos_bounds m2).
    assert (52 < Zpos (digits2_pos m2)); [|lia].
    apply (Z.pow_lt_mono_r_iff 2); lia. }
  destruct (shr_fexp_leading m2 e' loc_Exact D2 ltac:(lia)) as [E3 M3].
  destruct (shr_fexp prec emax (Zpos m2) e' loc_Exact) as [mrs'' e''].
  cbn [fst snd] in E3, M3.
  destruct (shr_m mrs'') as [|m3|m3]; try lia.
  destruct (Z.leb_spec e'' (emax - prec)) as [Hle|_]; [|reflexivity].
  unfold emax, prec in Hle. lia.
Qed.

(** ** The float tools *)

(** A float compares equal to 0 exactly when it is a zero, of either
    sign. *)
Lemma float_eq_zero (x : float) :
  float_eq x zero = true <-> exists s, x = S754_zero s.
Proof.
  destruct x as [s|s| |s m e]; simpl; split;
    try discriminate; try (intros [s' H]; discriminate H);
    try (destruct s; discriminate).
  - intros _. now exists s.
  - reflexivity.
Qed.

(** C3. [divide] answers a zero divisor (of either sign) with the domain
    error, whatever [a] is, and any other divisor with the quotient
    [a / b]; in both cases it returns its answer as a string and does not
    raise. *)
Theorem divide_guards_zero (P : platform) (a b : float) :
  Server.divide P a b =
  Ret (if float_eq b zero
       then "Error: Division by zero is not allowed"
       else "Result: " ++ repr_float P (SFdiv prec emax a b)) /\
  (float_eq b zero = true <-> exists s, b = S754_zero s) /\
  is_error "Error: Division by zero is not allowed" = true /\
  is_error ("Result: " ++ repr_float P (SFdiv prec emax a b)) = false.
Proof.
  split; [|split; [apply float_eq_zero|split; reflexivity]].
  unfold Server.divide, float_truediv.
  destruct (float_eq b zero); reflexivity.
Qed.

(** C2, at a failing input. [power(0.0, -1.0)] raises
    [ZeroDivisionError] instead of answering, on every platform; so does
    every zero base with every finite negative exponent.  What does hold
    of the claim: an answer of [power], when there is one, is a result
    and never a domain error. *)
Theorem power_zero_negative_raises (P : platform) :
  Server.power P zero (float_lit (-1) 0) = Raise ZeroDivisionError /\
  (forall sz m e,
      Server.power P (S754_zero sz) (S754_finite true m e)
      = Raise ZeroDivisionError) /\
  (forall base exponent out,
      Server.power P base exponent = Ret out -> is_error out = false).
Proof.
  split; [reflexivity|]. split; [reflexivity|].
  intros base exponent out H. unfold Server.power in H.
  destruct (float_pow P base exponent) as [r|]; [|discriminate H].
  injection H as <-. reflexivity.
Qed.

(** *** [logarithm] *)

Section Logarithm.

Variable P : platform.

(** The C library's [log] vanishes at 1 only, and is correctly rounded at
    2 and at 8. *)
Hypothesis libm_log_zero :
  forall b : float,
    float_lt zero b = true ->
    float_eq (libm_log P b) zero = true -> float_eq b one = true.
Hypothesis libm_log_two : libm_log P two = ln2.
Hypothesis libm_log_eight : libm_log P eight = ln8.

Lemma m_log_positive (x : float) :
  float_le x zero = false -> m_log P x = Ret (ln P x).
Proof.
  destruct x as [s|s| |s m e]; try destruct s; simpl;
    try discriminate; reflexivity.
Qed.

Lemma ln_nonzero (b : float) :
  float_le b zero = false -> float_eq b one = false ->
  float_eq (ln P b) zero = false.
Proof.
  intros Hle Hone.
  destruct b as [s|s| |s m e]; try destruct s; try discriminate Hle;
    try reflexivity.
  simpl ln. destruct (float_eq (libm_log P _) zero) eqn:E; [|reflexivity].
  apply libm_log_zero in E; [congruence|reflexivity].
Qed.

(** C5. [logarithm] answers with a domain error exactly when [x <= 0], or
    [base <= 0], or [base == 1]; on every other input it answers with
    [log(x) / log(base)] and does not raise; a call without [base] is a
    call with [math.e]; and [logarithm(8, 2)] is 3. *)
Theorem logarithm_domain_and_value :
  (forall (x : float) (base : option float),
      let b := match base with Some b => b | None => math_e end in
      Server.logarithm P x base =
      Ret (if float_le x zero then
             "Error: Logarithm requires a positive number"
           else if float_le b zero || float_eq b one then
             "Error: Logarithm base must be positive and not equal to 1"
           else
             "Result: " ++ repr_float P (SFdiv prec emax (ln P x) (ln P b))))
  /\
  (forall r : float,
      is_error "Error: Logarithm requires a positive number" = true /\
      is_error "Error: Logarithm base must be positive and not equal to 1"
      = true /\
      is_error ("Result: " ++ repr_float P r) = false) /\
  (forall x : float,
      Server.logarithm P x None = Server.logarithm P x (Some math_e)) /\
  Server.logarithm P eight (Some two) = Ret ("Result: " ++ repr_float P three).
Proof.
  assert (G : forall x b,
             Server.logarithm P x (Some b) =
             Ret (if float_le x zero then
                    "Error: Logarithm requires a positive number"
                  else if float_le b zero || float_eq b one then
                    "Error: Logarithm base must be positive and not equal to 1"
                  else
                    "Result: "
                    ++ repr_float P (SFdiv prec emax (ln P x) (ln P b)))).
  { intros x b. unfold Server.logarithm.
    destruct (float_le x zero) eqn:Hx; [reflexivity|].
    destruct (float_le b zero) eqn:Hb; [reflexivity|].
    destruct (float_eq b one) eqn:H1; [reflexivity|]. simpl orb. cbv iota.
    unfold math_log. rewrite !m_log_positive by assumption. simpl bind.
    unfold float_truediv. now rewrite ln_nonzero. }
  split; [|split; [|split]].
  - intros x [b|]; apply G.
  - intros r. repeat split.
  - reflexivity.
  - rewrite G. simpl. rewrite libm_log_two, libm_log_eight. reflexivity.
Qed.

End Logarithm.

Lemma table_log_zero (b : float) :
  float_lt zero b = true ->
  float_eq (table_log b) zero = true -> float_eq b one = true.
Proof.
  intros _. unfold table_log.
  destruct (float_eq b eight); [discriminate|].
  destruct (float_eq b two); [discriminate|].
  destruct (float_eq b one); [reflexivity|discriminate].
Qed.

(** The assumptions of C5 hold of the table, and there
    [logarithm(8, 2)] prints as 3.0. *)
Lemma logarithm_domain_and_value_witness :
  Server.logarithm table_platform eight (Some two) = Ret "Result: 3.0" /\
  Server.logarithm table_platform one (Some one) =
  Ret "Error: Logarithm base must be positive and not equal to 1".
Proof.
  destruct (logarithm_domain_and_value table_platform table_log_zero
              eq_refl eq_refl) as [G [_ [_ E]]].
  split; [exact E|]. exact (G one (Some one)).
Defined.

(** *** [modulo] *)

(** [fmod] of two finite nonzero floats, on the integers the operands are
    over their smaller exponent: the remainder is zero, or a float of the
    dividend's sign whose value is the integer remainder. *)
Lemma fmod_finite (sa sb : bool) (ma mb : positive) (ea eb : Z) :
  let e0 := Z.min ea eb in
  let A := Zpos ma * 2 ^ (ea - e0) in
  let B := Zpos mb * 2 ^ (eb - e0) in
  0 < A /\ 0 < B /\
  ((A mod B = 0 /\
    fmod (S754_finite sa ma ea) (S754_finite sb mb eb) = S754_zero sa) \/
   (exists m' e',
       fmod (S754_finite sa ma ea) (S754_finite sb mb eb)
       = S754_finite sa m' e' /\
       e' <= e0 /\
       Zpos m' = (A mod B) * 2 ^ (e0 - e') /\
       0 < A mod B < B)).
Proof.
  intros e0 A B.
  destruct (shl_align_spec ma ea e0) as (_ & HA & HA').
  destruct (shl_align_spec mb eb e0) as (_ & HB & HB').
  rewrite HA' in HA by (unfold e0; lia).
  rewrite HB' in HB by (unfold e0; lia).
  fold A in HA. fold B in HB.
  assert (PA : 0 < A) by (rewrite <- HA; lia).
  assert (PB : 0 < B) by (rewrite <- HB; lia).
  split; [exact PA|]. split; [exact PB|].
  unfold fmod. fold e0. rewrite HA, HB.
  rewrite Z.rem_mod_nonneg by lia.
  pose proof (Z.mod_pos_bound A B PB) as Hr.
  destruct (A mod B) as [|mr|mr] eqn:R; [left; auto| |lia].
  right.
  destruct (shl_align_spec mr e0 (fexp prec emax (Zpos (digits2_pos mr) + e0)))
    as (Hle & Hv & _).
  destruct (shl_align mr e0 _) as [m' e']. cbn [fst snd] in Hle, Hv.
  exists m', e'. repeat split; try assumption; lia.
Qed.

(** [fmod] of two well-formed finite floats whose integer remainder is
    not zero: the remainder, shifted onto its canonical exponent. *)
Lemma fmod_finite_valid (sa sb : bool) (ma mb mr : positive) (ea eb : Z) :
  let e0 := Z.min ea eb in
  let f := fexp prec emax (Zpos (digits2_pos mr) + e0) in
  valid_binary prec emax (S754_finite sa ma ea) = true ->
  valid_binary prec emax (S754_finite sb mb eb) = true ->
  (Zpos ma * 2 ^ (ea - e0)) mod (Zpos mb * 2 ^ (eb - e0)) = Zpos mr ->
  f <= e0 /\ e0 <= emax - prec /\
  exists m' : positive,
    Zpos m' = Zpos mr * 2 ^ (e0 - f) /\
    fmod (S754_finite sa ma ea) (S754_finite sb mb eb) = S754_finite sa m' f.
Proof.
  intros e0 f Va Vb Hr.
  destruct (valid_finite _ _ _ Va) as [Ca Ba].
  destruct (valid_finite _ _ _ Vb) as [Cb Bb].
  assert (Hf : f <= e0).
  { unfold f. destruct (Z_le_gt_dec ea eb) as [Hle|Hgt].
    - replace e0 with ea in * by (unfold e0; lia).
      rewrite Z.sub_diag, Z.pow_0_r, Z.mul_1_r in Hr.
      rewrite <- Ca at 2. apply fexp_mono.
      assert (Zpos (digits2_pos mr) <= Zpos (digits2_pos ma)); [|lia].
      apply digits2_pos_mono. rewrite <- Hr.
      apply Z.mod_le; [lia|].
      assert (0 < 2 ^ (eb - ea)) by (apply Z.pow_pos_nonneg; lia). nia.
    - replace e0 with eb in * by (unfold e0; lia).
      rewrite (Z.sub_diag eb), Z.pow_0_r, Z.mul_1_r in Hr.
      rewrite <- Cb at 2. apply fexp_mono.
      assert (Zpos (digits2_pos mr) <= Zpos (digits2_pos mb)); [|lia].
      apply digits2_pos_mono.
      pose proof (Z.mod_pos_bound (Zpos ma * 2 ^ (ea - eb)) (Zpos mb)
                    ltac:(lia)). lia. }
  split; [exact Hf|]. split; [unfold e0; lia|].
  destruct (shl_align_shift mr e0 f Hf) as (m' & Hal & Hv).
  exists m'. split; [exact Hv|].
  destruct (shl_align_spec ma ea e0) as (_ & HA & HA').
  destruct (shl_align_spec mb eb e0) as (_ & HB & HB').
  rewrite HA' in HA by (unfold e0; lia).
  rewrite HB' in HB by (unfold e0; lia).
  unfold fmod. fold e0. rewrite HA, HB.
  rewrite Z.rem_mod_nonneg, Hr.
  - fold f. now rewrite Hal.
  - apply Z.mul_nonneg_nonneg; [lia|apply Z.pow_nonneg; lia].
  - apply Z.mul_pos_pos; [lia|apply Z.pow_pos_nonneg; unfold e0; lia].
Qed.

Lemma fmod_sign (a b : float) :
  is_finite a = true -> is_finite b = true -> float_eq b zero = false ->
  has_sign (signbit a) (fmod a b).
Proof.
  intros Fa Fb Nz.
  destruct b as [sb|sb| |sb mb eb]; try discriminate.
  destruct a as [sa|sa| |sa ma ea]; try discriminate.
  - split; reflexivity.
  - destruct (fmod_finite sa sb ma mb ea eb)
      as (_ & _ & [[_ E] | (m' & e' & E & _)]); rewrite E; split; reflexivity.
Qed.

(** The answer of [%] on finite floats has the sign of the divisor. *)
Lemma float_rem_value_sign (a b : float) :
  is_finite a = true -> is_finite b = true -> float_eq b zero = false ->
  has_sign (signbit b) (float_rem_value a b).
Proof.
  intros Fa Fb Nz.
  destruct b as [sb|sb| |sb mb eb]; try discriminate.
  destruct a as [sa|sa| |sa ma ea]; try discriminate.
  - split; reflexivity.
  - destruct (fmod_finite sa sb ma mb ea eb)
      as (PA & PB & [[_ E] | (m' & e' & E & Hle & Hv & Hr)]);
      unfold float_rem_value; rewrite E.
    + split; reflexivity.
    + replace (float_eq (S754_finite sa m' e') zero) with false
        by (now destruct sa).
      replace (float_lt (S754_finite sb mb eb) zero) with sb
        by (now destruct sb).
      replace (float_lt (S754_finite sa m' e') zero) with sa
        by (now destruct sa).
      cbn [negb signbit].
      destruct (xorb sb sa) eqn:X; [|destruct sa, sb; try discriminate X;
                                     split; reflexivity].
      unfold float_add, SFadd.
      set (e0 := Z.min ea eb) in *.
      assert (Ez : Z.min e' eb = e') by (unfold e0 in Hle; lia).
      rewrite Ez.
      destruct (shl_align_spec m' e' e') as (_ & H1 & H1').
      destruct (shl_align_spec mb eb e') as (_ & H2 & H2').
      rewrite H1' in H1 by lia. rewrite H2' in H2 by (unfold e0 in Hle; lia).
      rewrite H1, H2, Z.sub_diag, Z.pow_0_r, Z.mul_1_r.
      assert (Hlt : Zpos m' < Zpos mb * 2 ^ (eb - e')).
      { replace (eb - e') with ((eb - e0) + (e0 - e')) by lia.
        rewrite Z.pow_add_r by (unfold e0 in *; lia).
        rewrite Hv, Z.mul_assoc.
        apply Z.mul_lt_mono_pos_r; [|lia].
        apply Z.pow_pos_nonneg; lia. }
      replace (cond_Zopp sa (Zpos m') + cond_Zopp sb (Zpos mb * 2 ^ (eb - e')))
        with (cond_Zopp sb (Zpos mb * 2 ^ (eb - e') - Zpos m'))
        by (destruct sa, sb; try discriminate X; unfold cond_Zopp; lia).
      apply binary_normalize_sign. lia.
Qed.

(** **** Exact values of aligned floats *)

Lemma two_power_nonzero (e : Z) : ~ (2 ^ e == 0)%Q.
Proof. apply Qpower_not_0. discriminate. Qed.

Lemma cond_Zopp_mul (s : bool) (k j : Z) :
  cond_Zopp s (k * j) = cond_Zopp s k * j.
Proof. destruct s; unfold cond_Zopp; ring. Qed.

(** An integer multiple of [2^d] over the exponent [e0] is the integer
    itself over [d + e0]. *)
Lemma Q_scale (k d e0 : Z) :
  0 <= d -> (inject_Z (k * 2 ^ d) * 2 ^ e0 == inject_Z k * 2 ^ (d + e0))%Q.
Proof.
  intros Hd.
  rewrite inject_Z_mult, Zpower_Qpower by exact Hd.
  rewrite Qpower_plus by discriminate.
  change (inject_Z 2) with 2%Q. ring.
Qed.

(** A finite float read over any exponent not above its own. *)
Lemma Q_of_float_aligned (s : bool) (m : positive) (e e0 : Z) :
  e0 <= e ->
  (Q_of_float (S754_finite s m e)
   == inject_Z (cond_Zopp s (Zpos m * 2 ^ (e - e0))) * 2 ^ e0)%Q.
Proof.
  intros Hle. unfold Q_of_float.
  rewrite cond_Zopp_mul, Q_scale by lia.
  replace (e - e0 + e0) with e by lia. reflexivity.
Qed.

(** The floored remainder of two rationals over a common power of two is
    the floored remainder of their numerators, which on integers is
    [Z.modulo]. *)
Lemma floored_remainder_scaled (A B e0 : Z) :
  B <> 0 ->
  (floored_remainder (inject_Z A * 2 ^ e0) (inject_Z B * 2 ^ e0)
   == inject_Z (A mod B) * 2 ^ e0)%Q.
Proof.
  intros HB. unfold floored_remainder.
  assert (NB : ~ (inject_Z B == 0)%Q).
  { intros H. apply HB. now apply (inject_Z_injective B 0). }
  pose proof (two_power_nonzero e0) as NT.
  rewrite (Qfloor_comp _ (inject_Z A / inject_Z B)) by (field; split; assumption).
  rewrite <- Zdiv_Qdiv, Z.mod_eq by exact HB.
  unfold Z.sub. rewrite inject_Z_plus, inject_Z_opp, inject_Z_mult. ring.
Qed.

Lemma floored_remainder_proper (a a' b b' : Q) :
  (a == a')%Q -> (b == b')%Q ->
  (floored_remainder a b == floored_remainder a' b')%Q.
Proof.
  intros Ha Hb. unfold floored_remainder.
  rewrite (Qfloor_comp (a / b) (a' / b')) by (now rewrite Ha, Hb).
  now rewrite Ha, Hb.
Qed.

Lemma signed_mod_zero (sa sb : bool) (A B : Z) :
  B <> 0 -> A mod B = 0 -> cond_Zopp sa A mod cond_Zopp sb B = 0.
Proof.
  intros HB H0. apply Z.mod_divide in H0; [|exact HB].
  apply Z.mod0_divide.
  destruct sa, sb; unfold cond_Zopp;
    auto using Z.divide_opp_l, Z.divide_opp_r.
  - apply Z.divide_opp_l, Z.divide_opp_r, H0.
  - apply Z.divide_opp_r, H0.
  - apply Z.divide_opp_l, H0.
Qed.

Lemma signed_mod_same_sign (s : bool) (A B : Z) :
  B <> 0 -> cond_Zopp s A mod cond_Zopp s B = cond_Zopp s (A mod B).
Proof.
  intros HB. destruct s; unfold cond_Zopp; [|reflexivity].
  now apply Z.mod_opp_opp.
Qed.

Lemma signed_mod_opposite (sa sb : bool) (A B : Z) :
  0 < B -> 0 < A mod B -> sa <> sb ->
  cond_Zopp sa A mod cond_Zopp sb B = cond_Zopp sb (B - A mod B).
Proof.
  intros HB Hr Hs.
  destruct sa, sb; try (now elim Hs); unfold cond_Zopp.
  - rewrite Z.mod_opp_l_nz by lia. reflexivity.
  - rewrite Z.mod_opp_r_nz by lia. lia.
Qed.

(** Where no rounding takes place the answer of [%] is the floored
    remainder exactly: when the operands have the same sign, and when
    the C remainder vanishes. *)
Lemma float_rem_value_exact (a b : float) :
  is_finite a = true -> is_finite b = true -> float_eq b zero = false ->
  signbit a = signbit b \/ float_eq (fmod a b) zero = true ->
  (Q_of_float (float_rem_value a b)
   == floored_remainder (Q_of_float a) (Q_of_float b))%Q.
Proof.
  intros Fa Fb Nz Hs.
  destruct b as [sb|sb| |sb mb eb]; try discriminate.
  destruct a as [sa|sa| |sa ma ea]; try discriminate.
  - unfold float_rem_value. simpl fmod. cbn.
    unfold floored_remainder.
    rewrite (Qfloor_comp _ 0) by (unfold Qdiv; apply Qmult_0_l).
    change (inject_Z (Qfloor 0)) with 0%Q. ring.
  - destruct (fmod_finite sa sb ma mb ea eb)
      as (PA & PB & Hfmod).
    set (e0 := Z.min ea eb) in *.
    set (A := Zpos ma * 2 ^ (ea - e0)) in *.
    set (B := Zpos mb * 2 ^ (eb - e0)) in *.
    rewrite (floored_remainder_proper _ _ _ _
               (Q_of_float_aligned sa ma ea e0 ltac:(unfold e0; lia))
               (Q_of_float_aligned sb mb eb e0 ltac:(unfold e0; lia))).
    fold A B.
    rewrite floored_remainder_scaled
      by (destruct sb; unfold cond_Zopp; lia).
    destruct Hfmod as [[R E] | (m' & e' & E & Hle & Hv & Hr)];
      unfold float_rem_value; rewrite E in *.
    + rewrite signed_mod_zero by (try exact R; lia).
      cbn. ring.
    + replace (float_eq (S754_finite sa m' e') zero) with false in *
        by (now destruct sa).
      destruct Hs as [Hs|Hs]; [|discriminate Hs].
      cbn [signbit] in Hs. subst sb.
      replace (float_lt (S754_finite sa mb eb) zero) with sa
        by (now destruct sa).
      replace (float_lt (S754_finite sa m' e') zero) with sa
        by (now destruct sa).
      rewrite xorb_nilpotent. cbn [negb].
      rewrite signed_mod_same_sign by lia.
      rewrite (Q_of_float_aligned sa m' e' e') by lia.
      rewrite Z.sub_diag, Z.pow_0_r, Z.mul_1_r, Hv.
      rewrite cond_Zopp_mul, Q_scale by lia.
      replace (e0 - e' + e') with e0 by lia. reflexivity.
Qed.

(** On well-formed finite floats Python's [%] is the floored remainder
    of the exact values, rounded once to the nearest float. *)
Lemma float_rem_value_rounds (a b : float) :
  is_finite a = true -> is_finite b = true -> float_eq b zero = false ->
  valid_binary prec emax a = true -> valid_binary prec emax b = true ->
  exists N e0 : Z,
    (floored_remainder (Q_of_float a) (Q_of_float b)
     == inject_Z N * 2 ^ e0)%Q /\
    float_rem_value a b = binary_normalize prec emax N e0 (signbit b).
Proof.
  intros Fa Fb Nz Va Vb.
  destruct b as [sb|sb| |sb mb eb]; try discriminate.
  destruct a as [sa|sa| |sa ma ea]; try discriminate.
  - exists 0, eb. split; [|reflexivity].
    unfold floored_remainder. cbn [Q_of_float].
    rewrite (Qfloor_comp _ 0) by (unfold Qdiv; apply Qmult_0_l).
    change (inject_Z (Qfloor 0)) with 0%Q. change (inject_Z 0) with 0%Q. ring.
  - destruct (fmod_finite sa sb ma mb ea eb) as (PA & PB & Hfmod).
    set (e0 := Z.min ea eb) in *.
    set (A := Zpos ma * 2 ^ (ea - e0)) in *.
    set (B := Zpos mb * 2 ^ (eb - e0)) in *.
    exists (cond_Zopp sa A mod cond_Zopp sb B), e0. split.
    { rewrite (floored_remainder_proper _ _ _ _
                 (Q_of_float_aligned sa ma ea e0 ltac:(unfold e0; lia))
                 (Q_of_float_aligned sb mb eb e0 ltac:(unfold e0; lia))).
      fold A B. apply floored_remainder_scaled.
      destruct sb; unfold cond_Zopp; lia. }
    destruct Hfmod as [[R E] | (m0 & e' & _ & _ & _ & Hr)].
    { unfold float_rem_value. rewrite E.
      rewrite signed_mod_zero by (try exact R; lia). reflexivity. }
    destruct (A mod B) as [|mr|mr] eqn:R; try lia.
    destruct (fmod_finite_valid sa sb ma mb mr ea eb Va Vb R)
      as (Hf & He0 & m' & Hv & E).
    fold e0 in Hf, He0, Hv, E.
    remember (fexp prec emax (Zpos (digits2_pos mr) + e0)) as f eqn:Ef.
    unfold float_rem_value. rewrite E.
    replace (float_eq (S754_finite sa m' f) zero) with false
      by (now destruct sa).
    replace (float_lt (S754_finite sb mb eb) zero) with sb
      by (now destruct sb).
    replace (float_lt (S754_finite sa m' f) zero) with sa
      by (now destruct sa).
    cbn [negb signbit].
    destruct (xorb sb sa) eqn:X.
    + assert (Hs : sa <> sb) by (destruct sa, sb; discriminate).
      rewrite (signed_mod_opposite sa sb A B PB) by (try exact Hs; lia).
      rewrite R.
      unfold float_add, SFadd.
      assert (Ez : Z.min f eb = f) by (unfold e0 in Hf; lia).
      rewrite Ez.
      destruct (shl_align_spec m' f f) as (_ & H1 & H1').
      destruct (shl_align_spec mb eb f) as (_ & H2 & H2').
      rewrite H1' in H1 by lia. rewrite H2' in H2 by (unfold e0 in Hf; lia).
      rewrite H1, H2, Z.sub_diag, Z.pow_0_r, Z.mul_1_r.
      assert (EB : Zpos mb * 2 ^ (eb - f) = B * 2 ^ (e0 - f)).
      { unfold B. rewrite <- Z.mul_assoc, <- Z.pow_add_r by (unfold e0 in *; lia).
        f_equal. f_equal. lia. }
      assert (P2 : 0 < 2 ^ (e0 - f)) by (apply Z.pow_pos_nonneg; lia).
      replace (cond_Zopp sa (Zpos m') + cond_Zopp sb (Zpos mb * 2 ^ (eb - f)))
        with (cond_Zopp sb ((B - Zpos mr) * 2 ^ (e0 - f)))
        by (rewrite EB, Hv; destruct sa, sb; try (now elim Hs);
            unfold cond_Zopp; ring).
      assert (PN : 0 < B - Zpos mr) by lia.
      destruct (B - Zpos mr) as [|np|np] eqn:EN; try lia.
      assert (PK : 0 < Zpos np * 2 ^ (e0 - f)) by lia.
      destruct (Zpos np * 2 ^ (e0 - f)) as [|kp|kp] eqn:EK; try lia.
      rewrite !binary_normalize_signed.
      replace f with (e0 - (e0 - f)) at 1 by lia.
      apply binary_round_shift; [lia|now symmetry].
    + assert (Hs : sa = sb) by (destruct sa, sb; try discriminate; reflexivity).
      subst sb. rewrite signed_mod_same_sign by lia. rewrite R.
      rewrite binary_normalize_signed.
      replace e0 with (f + (e0 - f)) at 1 by lia.
      rewrite <- (binary_round_shift sa mr m' (f + (e0 - f)) (e0 - f))
        by (try exact Hv; lia).
      replace (f + (e0 - f) - (e0 - f)) with f by lia.
      symmetry. apply binary_round_canonical; [|lia].
      rewrite (digits2_pos_shift mr m' (e0 - f)) by (try exact Hv; lia).
      replace (Zpos (digits2_pos mr) + (e0 - f) + f)
        with (Zpos (digits2_pos mr) + e0) by lia.
      now rewrite <- Ef.
Qed.

(** The model against the interpreter: [5.5 % 2.0 == 1.5],
    [-5.5 % 2.0 == 0.5], [5.5 % -2.0 == -0.5], and
    [1.0 % 0.1 == 0x1.9999999999996p-4]. *)
Example float_rem_samples :
  float_rem (float_lit 11 (-1)) two = Ret (float_lit 3 (-1)) /\
  float_rem (float_lit (-11) (-1)) two = Ret (float_lit 1 (-1)) /\
  float_rem (float_lit 11 (-1)) (float_lit (-2) 0) = Ret (float_lit (-1) (-1)) /\
  float_rem one (S754_finite false 7205759403792794 (-56))
  = Ret (S754_finite false 7205759403792790 (-56)).
Proof. repeat split. Qed.

(** C6, as stated, fails on floats: [modulo(-2^-60, 1.0)] answers 1.0,
    which is not the floored remainder [1 - 2^-60] (and is not below the
    divisor): the sum [fmod(a, b) + b] that moves the remainder to the
    divisor's sign is rounded. *)
Lemma modulo_rounds_the_floored_remainder :
  (forall P : platform,
      Server.modulo P (float_lit (-1) (-60)) one
      = Ret ("Result: " ++ repr_float P one)) /\
  ~ (Q_of_float one
     == floored_remainder (Q_of_float (float_lit (-1) (-60)))
                          (Q_of_float one))%Q.
Proof.
  split; [intros P; reflexivity|].
  vm_compute. intros H. discriminate H.
Qed.

(** C6, amended. [modulo] answers with the domain error exactly when
    [b == 0] (a zero of either sign) and otherwise with Python's float
    remainder, never raising.  For finite operands the remainder carries
    the sign of the divisor, also when it is a zero; it is the floored
    remainder [a - b * floor(a / b)] rounded once to the nearest float
    (every Python float is a well-formed binary64 value); and it is the
    floored remainder itself, unrounded, whenever [a] and [b] have the
    same sign or the C remainder [fmod(a, b)] vanishes.  (With opposite
    signs and a nonzero C remainder it may be either: [modulo(-5.5, 2.0)]
    is the exact 0.5, [modulo(-2^-60, 1.0)] the rounded 1.0.) *)
Theorem modulo_sign_follows_divisor (P : platform) :
  (forall a b : float,
      Server.modulo P a b =
      Ret (if float_eq b zero
           then "Error: Modulo by zero is not allowed"
           else "Result: " ++ repr_float P (float_rem_value a b))) /\
  (forall b : float, float_eq b zero = true <-> exists s, b = S754_zero s) /\
  (forall r : float,
      is_error "Error: Modulo by zero is not allowed" = true /\
      is_error ("Result: " ++ repr_float P r) = false) /\
  (forall a b : float,
      is_finite a = true -> is_finite b = true -> float_eq b zero = false ->
      is_nan (float_rem_value a b) = false /\
      signbit (float_rem_value a b) = signbit b) /\
  (forall a b : float,
      is_finite a = true -> is_finite b = true -> float_eq b zero = false ->
      valid_binary prec emax a = true -> valid_binary prec emax b = true ->
      exists N e0 : Z,
        (floored_remainder (Q_of_float a) (Q_of_float b)
         == inject_Z N * 2 ^ e0)%Q /\
        float_rem_value a b = binary_normalize prec emax N e0 (signbit b)) /\
  (forall a b : float,
      is_finite a = true -> is_finite b = true -> float_eq b zero = false ->
      signbit a = signbit b \/ float_eq (fmod a b) zero = true ->
      (Q_of_float (float_rem_value a b)
       == floored_remainder (Q_of_float a) (Q_of_float b))%Q).
Proof.
  split; [|split; [|split; [|split; [|split]]]].
  - intros a b. unfold Server.modulo, float_rem.
    destruct (float_eq b zero); reflexivity.
  - apply float_eq_zero.
  - intros r. split; reflexivity.
  - intros a b Fa Fb Nz. apply float_rem_value_sign; assumption.
  - apply float_rem_value_rounds.
  - apply float_rem_value_exact.
Qed.

(** ** [is_prime] *)

(** An even number above 2 is reported composite before any trial
    division, by an answer that names no divisor. *)
Lemma is_prime_even (n : Z) :
  2 < n < 10 ^ int_max_str_digits -> n mod 2 = 0 ->
  Server.is_prime n = Ret (decimal n ++ " is not prime").
Proof.
  intros Hn He. unfold Server.is_prime.
  destruct (Z.ltb_spec n 2); [lia|].
  destruct (Z.eqb_spec n 2); [lia|].
  rewrite He. cbn [Z.eqb]. now rewrite str_below by lia.
Qed.

(** Below 2 the answer is the error that names [n]. *)
Lemma is_prime_below_2 (n : Z) :
  - 10 ^ int_max_str_digits < n < 2 ->
  Server.is_prime n
  = Ret ("Error: " ++ decimal n
         ++ " is less than 2. Primality is only defined for integers >= 2").
Proof.
  intros Hn. unfold Server.is_prime. pose proof cap_above_floats.
  destruct (Z.ltb_spec n 2); [|lia]. now rewrite str_below by lia.
Qed.

Lemma is_prime_18 : Server.is_prime 18 = Ret "18 is not prime".
Proof.
  rewrite is_prime_even; [reflexivity| |reflexivity].
  pose proof cap_above_floats. lia.
Qed.

Example is_prime_samples :
  Server.is_prime 2 = Ret "2 is prime" /\
  Server.is_prime 17 = Ret "17 is prime" /\
  Server.is_prime 49 = Ret "49 is not prime (divisible by 7)" /\
  Server.is_prime 1 =
  Ret "Error: 1 is less than 2. Primality is only defined for integers >= 2".
Proof. vm_compute. repeat split. Qed.

(** C4, as stated, fails: the answer of [is_prime(18)] carries no witness
    divisor, neither 2 nor 3. *)
Lemma is_prime_18_names_no_divisor :
  ~ (exists d : Z,
        (d = 2 \/ d = 3) /\
        Server.is_prime 18 =
        Ret ("18 is not prime (divisible by " ++ decimal d ++ ")")).
Proof.
  intros [d [_ H]]. rewrite is_prime_18 in H. discriminate H.
Qed.

(** C4, amended. [is_prime(18)] reports composite, and its whole answer is
    ["18 is not prime"]: 18 is even, so it is rejected before the trial
    division that would name a divisor. *)
Theorem is_prime_18_composite :
  Server.is_prime 18 = Ret "18 is not prime" /\
  18 mod 2 = 0 /\
  (forall d : Z,
      Server.is_prime 18 <>
      Ret ("18 is not prime (divisible by " ++ decimal d ++ ")")).
Proof.
  split; [exact is_prime_18|]. split; [reflexivity|].
  intros d H. rewrite is_prime_18 in H. discriminate H.
Qed.

(** C1, at a failing input. [2^1024 + 1] is an odd integer above 2; its
    square root is asked of [math.sqrt], which first converts it to a
    float, and the conversion raises. No verdict is returned; nor is one
    for any other odd integer from [2^1024] upwards. *)
Theorem is_prime_overflows :
  (2 ^ 1024 + 1) mod 2 = 1 /\
  Server.is_prime (2 ^ 1024 + 1) = Raise OverflowError /\
  (forall n : Z,
      2 ^ 1024 <= n -> n mod 2 = 1 ->
      Server.is_prime n = Raise OverflowError).
Proof.
  split; [vm_compute; reflexivity|]. split; [vm_compute; reflexivity|].
  intros n Hn Ho. unfold Server.is_prime.
  assert (H2 : 2 < n) by (assert (0 < 2 ^ 1024) by (apply Z.pow_pos_nonneg; lia); lia).
  destruct (Z.ltb_spec n 2); [lia|].
  destruct (Z.eqb_spec n 2); [lia|].
  rewrite Ho. cbn [Z.eqb].
  unfold math_sqrt_int. now rewrite float_of_int_overflow.
Qed.

(** *** Trial division

    Where the float square root gives a bound that reaches
    [floor(sqrt(n))] and stays below [n], the loop of [is_prime] decides
    primality, and names the least odd divisor of a composite odd [n]. *)

Lemma first_from_some (p : Z -> bool) (step : Z) (k : nat) :
  forall i j : Z,
    first_from p i step k = Some j ->
    exists t : nat,
      (t < k)%nat /\ j = i + step * Z.of_nat t /\ p j = true /\
      forall u : nat, (u < t)%nat -> p (i + step * Z.of_nat u) = false.
Proof.
  induction k as [|k IH]; intros i j H; simpl in H; [discriminate|].
  destruct (p i) eqn:Pi.
  - injection H as <-. exists 0%nat.
    split; [lia|]. split; [lia|]. split; [exact Pi|]. intros u Hu. lia.
  - destruct (IH _ _ H) as (t & Ht & Ej & Pj & Hmin).
    exists (S t).
    split; [lia|]. split; [lia|]. split; [exact Pj|].
    intros [|u] Hu.
    + now replace (i + step * Z.of_nat 0) with i by lia.
    + replace (i + step * Z.of_nat (S u)) with (i + step + step * Z.of_nat u)
        by lia.
      apply Hmin. lia.
Qed.

Lemma first_from_none (p : Z -> bool) (step : Z) (k : nat) :
  forall i : Z,
    first_from p i step k = None ->
    forall t : nat, (t < k)%nat -> p (i + step * Z.of_nat t) = false.
Proof.
  induction k as [|k IH]; intros i H t Ht; [lia|]. simpl in H.
  destruct (p i) eqn:Pi; [discriminate|].
  destruct t as [|t].
  - now replace (i + step * Z.of_nat 0) with i by lia.
  - replace (i + step * Z.of_nat (S t)) with (i + step + step * Z.of_nat t)
      by lia.
    apply IH; [exact H|lia].
Qed.

(** A proper divisor comes with one at or below the square root. *)
Lemma small_divisor (n d : Z) :
  1 < d < n -> (d | n) -> exists c : Z, 1 < c /\ c * c <= n /\ (c | n).
Proof.
  intros Hd [q Hq].
  assert (1 < q) by nia.
  destruct (Z_le_gt_dec d q).
  - exists d. repeat split; try lia; try nia. now exists q.
  - exists q. repeat split; try lia; try nia. exists d. lia.
Qed.

Lemma odd_divisor (n c : Z) : n mod 2 <> 0 -> (c | n) -> c mod 2 = 1.
Proof.
  intros Hn [q Hq].
  destruct (Z.eq_dec (c mod 2) 0) as [E|E].
  - exfalso. apply Hn. apply Z.mod_divide in E; [|lia].
    destruct E as [c' ->]. apply Z.mod_divide; [lia|].
    exists (q * c'). lia.
  - pose proof (Z.mod_pos_bound c 2). lia.
Qed.

(** The quotient and remainder of a division by two, for [lia]. *)
Ltac halve x :=
  pose proof (Z.div_mod x 2 ltac:(lia));
  pose proof (Z.mod_pos_bound x 2 ltac:(lia)).

(** The loop index [3 + 2 * t] that an odd [j >= 3] is. *)
Lemma odd_index (j : Z) :
  3 <= j -> j mod 2 = 1 ->
  3 + 2 * Z.of_nat (Z.to_nat ((j - 3) / 2)) = j /\ 0 <= (j - 3) / 2.
Proof.
  intros Hj Oj.
  assert (E0 : (j - 3) mod 2 = 0) by (rewrite Zminus_mod, Oj; reflexivity).
  halve (j - 3). rewrite Z2Nat.id; lia.
Qed.

Theorem is_prime_decides_given_root (n : Z) (root : float) (bound : Z) :
  2 <= n ->
  math_sqrt_int n = Ret root ->
  int_of_float root = Ret bound ->
  Z.sqrt n <= bound < n ->
  (Z.prime n /\ Server.is_prime n = Ret (decimal n ++ " is prime")) \/
  (~ Z.prime n /\ n mod 2 = 0 /\
   Server.is_prime n = Ret (decimal n ++ " is not prime")) \/
  (~ Z.prime n /\ n mod 2 = 1 /\
   exists i : Z,
     3 <= i < n /\ (i | n) /\
     (forall j : Z, 3 <= j < i -> j mod 2 = 1 -> ~ (j | n)) /\
     Server.is_prime n
     = Ret (decimal n ++ " is not prime (divisible by " ++ decimal i ++ ")")).
Proof.
  intros Hn Hroot Hbound Hb.
  assert (Hcap : n <= 2 ^ 1024).
  { destruct (Z_lt_le_dec n (2 ^ 1024)) as [L|L]; [lia|].
    unfold math_sqrt_int in Hroot.
    rewrite float_of_int_overflow in Hroot by exact L. discriminate Hroot. }
  assert (Sn : str n = Ret (decimal n)) by (apply str_float_range; lia).
  unfold Server.is_prime.
  destruct (Z.ltb_spec n 2) as [|_]; [lia|].
  destruct (Z.eqb_spec n 2) as [->|N2].
  { left. split; [|now rewrite Sn]. split; [lia|]. intros d Hd. lia. }
  destruct (Z.eqb_spec (n mod 2) 0) as [He|Ho].
  { right. left. split; [|split; [exact He|now rewrite Sn]].
    intros [_ Hp]. apply (Hp 2); [lia|]. apply Z.mod_divide; [lia|exact He]. }
  rewrite Hroot. cbn [bind]. rewrite Hbound. cbn [bind].
  assert (O1 : n mod 2 = 1) by (pose proof (Z.mod_pos_bound n 2); lia).
  unfold first_in_range, range_len.
  replace (bound + 1 - 3 + 2 - 1) with (bound - 1) by lia.
  halve (bound - 1).
  destruct (first_from _ 3 2 _) as [i|] eqn:F.
  - apply first_from_some in F. destruct F as (t & Ht & Ei & Pi & Hmin).
    assert (Hi : 3 <= i < n) by lia.
    apply Z.eqb_eq in Pi.
    assert (Di : (i | n)) by (apply Z.mod_divide; [lia|exact Pi]).
    right. right. split; [|split; [exact O1|]].
    + intros [_ Hp]. apply (Hp i); [lia|exact Di].
    + exists i. split; [exact Hi|]. split; [exact Di|].
      split; [|now rewrite Sn, (str_float_range i) by lia].
      intros j Hj Oj Dj.
      destruct (odd_index j ltac:(lia) Oj) as [Ej Pj].
      specialize (Hmin (Z.to_nat ((j - 3) / 2))).
      rewrite Ej in Hmin.
      assert (Hlt : (Z.to_nat ((j - 3) / 2) < t)%nat)
        by (halve (j - 3); lia).
      apply Hmin in Hlt. apply Z.eqb_neq in Hlt.
      apply Hlt. apply Z.mod_divide; [lia|exact Dj].
  - left. split; [|now rewrite Sn]. split; [lia|].
    intros d Hd Dd.
    destruct (small_divisor n d Hd Dd) as (c & Hc & Hcc & Dc).
    pose proof (odd_divisor n c Ho Dc) as Oc.
    assert (Hcs : c <= Z.sqrt n) by (apply Z.sqrt_le_square; lia).
    assert (C3 : 3 <= c)
      by (destruct (Z.eq_dec c 2) as [->|]; [discriminate|lia]).
    destruct (odd_index c C3 Oc) as [Ec Pc].
    pose proof (first_from_none _ _ _ _ F (Z.to_nat ((c - 3) / 2))) as Hnone.
    rewrite Ec in Hnone.
    assert (Hlt : (Z.to_nat ((c - 3) / 2) < Z.to_nat ((bound - 1) / 2))%nat)
      by (halve (c - 3); lia).
    apply Hnone in Hlt. apply Z.eqb_neq in Hlt.
    apply Hlt. apply Z.mod_divide; [lia|exact Dc].
Qed.

(** *** The float square root of an integer below [2^52] *)

(** The integer square root of [n * T^2], against that of [n]. *)
Lemma sqrt_scaled_bounds (n T : Z) :
  0 <= n -> 0 < T ->
  Z.sqrt n * T <= Z.sqrt (n * (T * T)) < (Z.sqrt n + 1) * T.
Proof.
  intros Hn HT.
  pose proof (Z.sqrt_spec n Hn) as HK. cbv zeta in HK.
  pose proof (Z.sqrt_nonneg n) as K0.
  set (K := Z.sqrt n) in *.
  split.
  - apply Z.sqrt_le_square; nia.
  - apply Z.sqrt_lt_square; nia.
Qed.

Lemma div_between (q T K : Z) : 0 < T -> K * T <= q < (K + 1) * T -> q / T = K.
Proof.
  intros HT H. symmetry. apply (Z.div_unique q T K (q - K * T)); lia.
Qed.

Lemma sqrt_scaled (n T : Z) :
  0 <= n -> 0 < T -> Z.sqrt (n * (T * T)) / T = Z.sqrt n.
Proof.
  intros Hn HT. apply div_between; [exact HT|].
  now apply sqrt_scaled_bounds.
Qed.

(** When the remainder calls for rounding up, the root plus one is still
    below the next multiple of [T], provided [T] is above the root of
    [n]. *)
Lemma sqrt_scaled_round_up (n T : Z) :
  0 <= n -> 0 < T -> Z.sqrt n + 1 <= T ->
  Z.sqrt (n * (T * T)) < n * (T * T) - Z.sqrt (n * (T * T)) * Z.sqrt (n * (T * T)) ->
  Z.sqrt n * T <= Z.sqrt (n * (T * T)) + 1 < (Z.sqrt n + 1) * T.
Proof.
  intros Hn HT HK Hr.
  pose proof (sqrt_scaled_bounds n T Hn HT) as [B1 B2].
  pose proof (Z.sqrt_spec n Hn) as HS. cbv zeta in HS.
  pose proof (Z.sqrt_nonneg n) as K0.
  set (K := Z.sqrt n) in *.
  set (q := Z.sqrt (n * (T * T))) in *.
  split; [lia|].
  destruct (Z_lt_le_dec (q + 1) ((K + 1) * T)) as [|Hge]; [assumption|].
  exfalso.
  assert (Eq : q = (K + 1) * T - 1) by lia.
  assert (n <= (K + 1) * (K + 1) - 1) by lia.
  assert (n * (T * T) <= ((K + 1) * (K + 1) - 1) * (T * T)) by nia.
  rewrite Eq in Hr. nia.
Qed.

(** An integer of at most 53 bits converts exactly, to a 53-bit
    mantissa. *)
Lemma float_of_int_exact (n : positive) :
  Zpos (digits2_pos n) <= 53 ->
  exists m : positive,
    Zpos m = Zpos n * 2 ^ (53 - Zpos (digits2_pos n)) /\
    Zpos (digits2_pos m) = 53 /\
    float_of_int (Zpos n)
    = Ret (S754_finite false m (Zpos (digits2_pos n) - 53)).
Proof.
  intros Hd. pose proof (digits2_pos_bounds n) as Bn.
  remember (Zpos (digits2_pos n)) as d eqn:Ed.
  assert (D0 : 0 < d) by lia.
  unfold float_of_int, binary_normalize, binary_round.
  rewrite <- Ed, Z.add_0_r, fexp_normal by lia.
  destruct (shl_align_spec n 0 (d - 53)) as (_ & Hv & Hs).
  specialize (Hs ltac:(lia)).
  destruct (shl_align n 0 (d - 53)) as [mz ez]. cbn [fst snd] in Hv, Hs.
  subst ez. replace (0 - (d - 53)) with (53 - d) in Hv by lia.
  assert (Dm : Zpos (digits2_pos mz) = 53).
  { apply digits2_pos_unique. rewrite Hv.
    replace (2 ^ (53 - 1)) with (2 ^ (d - 1) * 2 ^ (53 - d))
      by (rewrite <- Z.pow_add_r by lia; f_equal; lia).
    replace (2 ^ 53) with (2 ^ d * 2 ^ (53 - d))
      by (rewrite <- Z.pow_add_r by lia; f_equal; lia).
    assert (0 < 2 ^ (53 - d)) by (apply Z.pow_pos_nonneg; lia).
    nia. }
  rewrite binary_round_aux_canonical.
  - exists mz. cbn [round_nearest_even Z.to_pos]. auto.
  - rewrite Dm, fexp_normal by lia. lia.
  - cbn [round_nearest_even Zdigits2]. rewrite Dm, fexp_normal by lia. lia.
  - unfold emax, prec. lia.
Qed.

(** The integer square root [SFsqrt] takes on such a float: that of
    [n * 4^k], over the exponent [-k]. *)
Lemma sqrt_core (n m : positive) :
  let d := Zpos (digits2_pos n) in
  let k := 53 - (d + 1) / 2 in
  let M := Zpos n * (2 ^ k * 2 ^ k) in
  let q := Z.sqrt M in
  d <= 52 ->
  Zpos m = Zpos n * 2 ^ (53 - d) ->
  Zpos (digits2_pos m) = 53 ->
  SFsqrt_core_binary prec emax (Zpos m) (d - 53)
  = (q, - k,
     if M - q * q =? 0 then loc_Exact
     else loc_Inexact (if M - q * q <=? q then Lt else Gt)).
Proof.
  intros d k M q Hd Hm Dm.
  assert (D0 : 0 < d) by (unfold d; lia).
  halve (d + 1). halve (d - 53).
  unfold SFsqrt_core_binary. cbn [Zdigits2]. rewrite Dm.
  rewrite !Z.div2_div.
  replace (53 + (d - 53) + 1) with (d + 1) by lia.
  rewrite fexp_normal by lia.
  replace (Z.min ((d + 1) / 2 - 53) ((d - 53) / 2)) with (- k)
    by (unfold k; lia).
  assert (Hs : 0 < d - 53 - 2 * - k) by (unfold k; lia).
  assert (EM : Z.shiftl (Zpos m) (d - 53 - 2 * - k) = M).
  { rewrite Z.shiftl_mul_pow2 by lia. rewrite Hm. unfold M.
    rewrite <- Z.mul_assoc, <- !Z.pow_add_r by (unfold k; lia).
    f_equal. f_equal. lia. }
  destruct (d - 53 - 2 * - k) as [|s|s] eqn:Es; try lia.
  rewrite EM.
  pose proof (Z.sqrtrem_spec M ltac:(unfold M; apply Z.mul_nonneg_nonneg;
                                      [lia|apply Z.square_nonneg])) as Sp.
  pose proof (Z.sqrtrem_sqrt M) as Sq.
  destruct (Z.sqrtrem M) as [q0 r0]. cbn [fst] in Sq.
  destruct Sp as [Sp _]. fold q in Sq. subst q0.
  replace r0 with (M - q * q) by lia. reflexivity.
Qed.

Lemma int_of_float_shift (q : positive) (k : Z) :
  0 <= k ->
  int_of_float (S754_finite false q (- k)) = Ret (Zpos q / 2 ^ k).
Proof.
  intros Hk. unfold int_of_float, cond_Zopp.
  now rewrite Z.shiftl_opp_r, Z.shiftr_div_pow2.
Qed.

(** Below [2^52] the float square root, truncated, is the integer square
    root. *)
Lemma root_bound_exact (n : Z) :
  0 < n < 2 ^ 52 -> root_bound n = Ret (Z.sqrt n).
Proof.
  intros Hn. destruct n as [|p|p]; try lia.
  pose proof (digits2_pos_bounds p) as Bp.
  remember (Zpos (digits2_pos p)) as d eqn:Ed.
  assert (D0 : 0 < d) by lia.
  assert (Hd : d <= 52).
  { assert (d - 1 < 52); [|lia]. apply (Z.pow_lt_mono_r_iff 2); lia. }
  destruct (float_of_int_exact p ltac:(lia)) as (m & Hm & Dm & Ef).
  rewrite <- Ed in Hm, Ef.
  unfold root_bound, math_sqrt_int. rewrite Ef. cbn [bind].
  unfold math_sqrt.
  change (float_lt (S754_finite false m (d - 53)) zero) with false.
  cbn [bind]. unfold SFsqrt.
  pose proof (sqrt_core p m) as Hc. cbv zeta in Hc. rewrite <- Ed in Hc.
  rewrite Hc by assumption. clear Hc.
  halve (d + 1).
  remember (53 - (d + 1) / 2) as k eqn:Ek.
  assert (K0 : 27 <= k <= 53) by lia.
  remember (2 ^ k) as T eqn:ET.
  assert (T0 : 0 < T) by (subst T; apply Z.pow_pos_nonneg; lia).
  set (K := Z.sqrt (Zpos p)).
  assert (HKT : K + 1 <= T).
  { assert (K < 2 ^ ((d + 1) / 2)).
    { apply Z.sqrt_lt_square; [lia|apply Z.pow_nonneg; lia|].
      rewrite <- Z.pow_add_r by lia.
      apply Z.lt_le_trans with (2 ^ d); [lia|].
      apply Z.pow_le_mono_r; lia. }
    assert (2 ^ ((d + 1) / 2) <= T)
      by (subst T; apply Z.pow_le_mono_r; lia).
    lia. }
  assert (HKT2 : (K + 1) * T <= 2 ^ 53).
  { replace (2 ^ 53) with (2 ^ (53 - k) * T)
      by (subst T; rewrite <- Z.pow_add_r by lia; f_equal; lia).
    apply Z.mul_le_mono_nonneg_r; [lia|].
    assert (K < 2 ^ (53 - k)); [|lia].
    apply Z.sqrt_lt_square; [lia|apply Z.pow_nonneg; lia|].
    rewrite <- Z.pow_add_r by lia.
    apply Z.lt_le_trans with (2 ^ d); [lia|].
    apply Z.pow_le_mono_r; lia. }
  pose proof (sqrt_scaled_bounds (Zpos p) T ltac:(lia) T0) as [B1 B2].
  fold K in B1, B2.
  remember (Z.sqrt (Zpos p * (T * T))) as q eqn:Eq.
  assert (Q52 : 2 ^ 52 <= q).
  { rewrite Eq.
    apply Z.sqrt_le_square;
      [apply Z.mul_nonneg_nonneg; [lia|apply Z.square_nonneg]
      |apply Z.pow_nonneg; lia|].
    rewrite <- Z.pow_add_r by lia.
    apply Z.le_trans with (2 ^ (d - 1) * (T * T)).
    - subst T. rewrite <- !Z.pow_add_r by lia.
      apply Z.pow_le_mono_r; lia.
    - apply Z.mul_le_mono_nonneg_r; [apply Z.square_nonneg|lia]. }
  assert (Q53 : q < 2 ^ 53) by lia.
  destruct q as [|qp|qp]; try lia.
  assert (Dq : Zpos (digits2_pos qp) = 53)
    by (apply digits2_pos_unique; simpl Z.sub; lia).
  set (r := Zpos p * (T * T) - Zpos qp * Zpos qp).
  set (l := if r =? 0 then loc_Exact
            else loc_Inexact (if r <=? Zpos qp then Lt else Gt)).
  assert (Hq' : K * T <= round_nearest_even (Zpos qp) l < (K + 1) * T).
  { unfold l. destruct (Z.eqb_spec r 0); [cbn [round_nearest_even]; lia|].
    destruct (Z.leb_spec r (Zpos qp)); [cbn [round_nearest_even]; lia|].
    cbn [round_nearest_even].
    pose proof (sqrt_scaled_round_up (Zpos p) T ltac:(lia) T0 HKT) as Hup.
    rewrite <- Eq in Hup. fold K r in Hup. apply Hup. lia. }
  assert (Hpos : 2 ^ 52 <= round_nearest_even (Zpos qp) l).
  { unfold l. destruct (r =? 0); [cbn [round_nearest_even]; lia|].
    destruct (r <=? Zpos qp); cbn [round_nearest_even]; lia. }
  destruct (round_nearest_even (Zpos qp) l) as [|q'|q'] eqn:Er; try lia.
  rewrite binary_round_aux_canonical.
  - fold l. rewrite Er. cbn [Z.to_pos].
    rewrite int_of_float_shift by lia. rewrite <- ET.
    f_equal. apply div_between; assumption.
  - rewrite Dq, fexp_normal by lia. lia.
  - fold l. rewrite Er. cbn [Zdigits2].
    rewrite (digits2_pos_unique q' 53) by (simpl Z.sub; lia).
    rewrite fexp_normal by lia. lia.
  - unfold emax, prec. lia.
Qed.

(** X22. For every [n] from 2 up to [2^52] the verdict of [is_prime] is
    the reference one: it answers ["n is prime"] exactly when [n] has no
    divisor [d] with [1 < d < n]; an even composite is answered without a
    divisor, an odd composite with its least divisor from 3 upwards. *)
Theorem is_prime_matches_reference (n : Z) :
  2 <= n < 2 ^ 52 ->
  (Server.is_prime n = Ret (decimal n ++ " is prime") <-> Z.prime n) /\
  ((Z.prime n /\ Server.is_prime n = Ret (decimal n ++ " is prime")) \/
   (~ Z.prime n /\ n mod 2 = 0 /\
    Server.is_prime n = Ret (decimal n ++ " is not prime")) \/
   (~ Z.prime n /\ n mod 2 = 1 /\
    exists i : Z,
      3 <= i <= Z.sqrt n /\ (i | n) /\
      (forall j : Z, 3 <= j < i -> j mod 2 = 1 -> ~ (j | n)) /\
      Server.is_prime n
      = Ret (decimal n ++ " is not prime (divisible by " ++ decimal i ++ ")"))).
Proof.
  intros Hn.
  pose proof (root_bound_exact n ltac:(lia)) as Hr.
  unfold root_bound in Hr.
  destruct (math_sqrt_int n) as [root|] eqn:Hroot; [|discriminate Hr].
  cbn [bind] in Hr.
  assert (Hb : Z.sqrt n <= Z.sqrt n < n)
    by (split; [lia|apply Z.sqrt_lt_lin; lia]).
  destruct (is_prime_decides_given_root n root (Z.sqrt n)
              ltac:(lia) Hroot Hr Hb)
    as [[Hp E] | [(Hp & He & E) | (Hp & Ho & i & Hi & Di & Hmin & E)]].
  - split; [rewrite E; tauto|]. left. tauto.
  - split; [|right; left; tauto]. rewrite E. split; [|tauto].
    intros H. injection H as H. apply append_inj_l in H. discriminate H.
  - split.
    + rewrite E. split; [|tauto].
      intros H. injection H as H. apply append_inj_l in H. discriminate H.
    + right. right. split; [exact Hp|]. split; [exact Ho|].
      exists i. split; [|tauto]. split; [lia|].
      apply Z.sqrt_le_square; try lia.
      destruct Di as [c Hc].
      assert (1 < c) by nia.
      destruct (Z_le_gt_dec i c) as [|Hgt]; [nia|]. exfalso.
      assert (Oc : c mod 2 = 1).
      { apply (odd_divisor n); [lia|]. exists i. lia. }
      apply (Hmin c).
      * destruct (Z.eq_dec c 2) as [->|]; [discriminate Oc|lia].
      * exact Oc.
      * exists i. lia.
Qed.

(** * Further properties of the tools *)

(** ** The arithmetic tools *)

Lemma float_add_comm (x y : float) : float_add x y = float_add y x.
Proof.
  destruct x as [sx|sx| |sx mx ex], y as [sy|sy| |sy my ey];
    try reflexivity; try (destruct sx, sy; reflexivity).
  unfold float_add, SFadd. now rewrite (Z.min_comm ey ex), Z.add_comm.
Qed.

Lemma float_mul_comm (x y : float) : float_mul x y = float_mul y x.
Proof.
  destruct x as [sx|sx| |sx mx ex], y as [sy|sy| |sy my ey];
    try reflexivity; try (destruct sx, sy; reflexivity).
  unfold float_mul, SFmul.
  now rewrite (xorb_comm sy sx), (Pos.mul_comm my mx), (Z.add_comm ey ex).
Qed.

Lemma float_sub_add_neg (x y : float) :
  float_sub x y = float_add x (float_neg y).
Proof.
  destruct x as [sx|sx| |sx mx ex], y as [sy|sy| |sy my ey];
    try reflexivity; destruct sx, sy; reflexivity.
Qed.

(** X1. [add] and [multiply] do not depend on the order of their
    arguments, whatever the floats (infinities, zeros and NaN included). *)
Theorem add_multiply_commute (P : platform) (a b : float) :
  Server.add P a b = Server.add P b a /\
  Server.multiply P a b = Server.multiply P b a.
Proof.
  unfold Server.add, Server.multiply.
  now rewrite (float_add_comm a b), (float_mul_comm a b).
Qed.

(** X2. [subtract(a, b)] answers as [add(a, -b)] does; subtracting a finite
    float from itself gives [+0.0], and subtracting [0.0] changes
    nothing, not even the sign of a zero. *)
Theorem subtract_is_add_of_negation (P : platform) :
  (forall a b : float,
      Server.subtract P a b = Server.add P a (float_neg b)) /\
  (forall (s : bool) (m : positive) (e : Z),
      Server.subtract P (S754_finite s m e) (S754_finite s m e)
      = "Result: " ++ repr_float P zero) /\
  (forall s : bool,
      Server.subtract P (S754_zero s) (S754_zero s)
      = "Result: " ++ repr_float P zero) /\
  (forall a : float, Server.subtract P a zero = "Result: " ++ repr_float P a).
Proof.
  split; [|split; [|split]].
  - intros a b. unfold Server.subtract, Server.add.
    now rewrite float_sub_add_neg.
  - intros s m e. unfold Server.subtract, float_sub, SFsub.
    now rewrite Z.sub_diag.
  - intros [|]; reflexivity.
  - intros [s|s| |s m e]; try reflexivity. destruct s; reflexivity.
Qed.

(** Rounding a well-formed mantissa that was padded with zero bits gives
    the float back. *)
Lemma binary_round_aux_padded (s : bool) (m mj : positive) (e j : Z) :
  0 <= j -> Zpos mj = Zpos m * 2 ^ j ->
  fexp prec emax (Zpos (digits2_pos m) + e) = e -> e <= emax - prec ->
  binary_round_aux prec emax s (Zpos mj) (e - j) loc_Exact = S754_finite s m e.
Proof.
  intros Hj Hm C B.
  transitivity (binary_round_aux prec emax s (Zpos m) e loc_Exact);
    [|now rewrite binary_round_aux_canonical].
  apply binary_round_aux_shr. unfold shr_fexp. cbn [Zdigits2].
  rewrite (digits2_pos_shift m mj j Hj Hm).
  replace (Zpos (digits2_pos m) + j + (e - j)) with (Zpos (digits2_pos m) + e)
    by lia.
  rewrite C, Z.sub_diag.
  change (shr_record_of_loc (Zpos mj) loc_Exact) with (exact_record (Zpos mj)).
  change (shr_record_of_loc (Zpos m) loc_Exact) with (exact_record (Zpos m)).
  rewrite Hm. replace (e - (e - j)) with (0 + j) by lia.
  apply shr_strip; lia.
Qed.

(** X3. [1.0] is neutral for [multiply] on every float, and [0.0] for
    [add] on every float but [-0.0], where the sum is [+0.0]. *)
Theorem multiply_add_neutral (P : platform) :
  (forall a : float,
      valid_binary prec emax a = true ->
      Server.multiply P a one = "Result: " ++ repr_float P a) /\
  (forall a : float,
      a <> S754_zero true ->
      Server.add P a zero = "Result: " ++ repr_float P a) /\
  Server.add P (S754_zero true) zero = "Result: " ++ repr_float P zero.
Proof.
  split; [|split; [|reflexivity]].
  - intros a Va. unfold Server.multiply. f_equal. f_equal.
    destruct a as [s|s| |s m e]; try reflexivity;
      try (destruct s; reflexivity).
    destruct (valid_finite s m e Va) as [C B].
    unfold float_mul, SFmul, one. rewrite xorb_false_r.
    change (e + -52) with (e - 52).
    apply binary_round_aux_padded; try assumption; [lia|].
    rewrite Pos2Z.inj_mul. reflexivity.
  - intros a Ha. unfold Server.add. f_equal. f_equal.
    destruct a as [s|s| |s m e]; try reflexivity.
    destruct s; [now elim Ha|reflexivity].
Qed.

(** A finite nonzero float divided by itself is [1.0], exactly. *)
Lemma SFdiv_self (s : bool) (m : positive) (e : Z) :
  SFdiv prec emax (S754_finite s m e) (S754_finite s m e) = one.
Proof.
  unfold SFdiv, SFdiv_core_binary. cbn [Zdigits2].
  replace (Zpos (digits2_pos m) + e - (Zpos (digits2_pos m) + e)) with 0
    by lia.
  rewrite Z.sub_diag.
  change (Z.min (fexp prec emax 0) 0) with (-53).
  change (0 - -53) with 53.
  rewrite Z.shiftl_mul_pow2 by lia.
  replace (Z.div_eucl (Zpos m * 2 ^ 53) (Zpos m)) with (2 ^ 53, 0).
  - rewrite xorb_nilpotent.
    replace (new_location (Zpos m) 0) with loc_Exact
      by (unfold new_location, new_location_even, new_location_odd;
          destruct (Z.even (Zpos m)); reflexivity).
    reflexivity.
  - transitivity ((Zpos m * 2 ^ 53) / Zpos m, (Zpos m * 2 ^ 53) mod Zpos m).
    + rewrite Z.mul_comm, Z.div_mul, Z.mod_mul by lia. reflexivity.
    + unfold Z.div, Z.modulo.
      now destruct (Z.div_eucl (Zpos m * 2 ^ 53) (Zpos m)).
Qed.

(** X4. [divide(a, a)] is [1.0] for every finite nonzero [a]. *)
Theorem divide_self (P : platform) (s : bool) (m : positive) (e : Z) :
  Server.divide P (S754_finite s m e) (S754_finite s m e)
  = Ret ("Result: " ++ repr_float P one).
Proof.
  unfold Server.divide, float_truediv.
  replace (float_eq (S754_finite s m e) zero) with false by (now destruct s).
  cbn [bind]. now rewrite SFdiv_self.
Qed.

(** X5. [logarithm(x, x)] is [1.0] for every finite [x > 0] other than 1
    at which the C library's [log] is finite and not zero. *)
Theorem logarithm_self (P : platform) (m : positive) (e : Z)
        (s' : bool) (m' : positive) (e' : Z) :
  float_eq (S754_finite false m e) one = false ->
  libm_log P (S754_finite false m e) = S754_finite s' m' e' ->
  Server.logarithm P (S754_finite false m e) (Some (S754_finite false m e))
  = Ret ("Result: " ++ repr_float P one).
Proof.
  intros H1 Hl. unfold Server.logarithm.
  change (float_le (S754_finite false m e) zero) with false.
  rewrite H1. cbn [orb]. unfold math_log, m_log.
  change (float_lt zero (S754_finite false m e)) with true.
  cbn [bind]. rewrite Hl. unfold float_truediv.
  replace (float_eq (S754_finite s' m' e') zero) with false
    by (now destruct s').
  cbn [bind]. now rewrite SFdiv_self.
Qed.

Lemma logarithm_self_witness :
  Server.logarithm table_platform two (Some two)
  = Ret ("Result: " ++ repr_float table_platform one).
Proof.
  exact (logarithm_self table_platform 4503599627370496 (-51)
           false 6243314768165359 (-53) eq_refl eq_refl).
Defined.

(** ** [sqrt] and [absolute] *)

Lemma SFsqrt_not_negative (x : float) :
  float_lt x zero = false -> float_lt (SFsqrt prec emax x) zero = false.
Proof.
  destruct x as [s|s| |s m e]; try (destruct s; (discriminate || reflexivity)).
  - reflexivity.
  - destruct s; [discriminate|]. intros _. unfold SFsqrt.
    destruct (SFsqrt_core_binary prec emax (Zpos m) e) as [[q eq] l] eqn:Ec.
    assert (Hq : 0 <= q).
    { unfold SFsqrt_core_binary in Ec.
      destruct (Z.sqrtrem _) as [q0 r0] eqn:Es in Ec.
      injection Ec as <- _ _.
      change q0 with (fst (q0, r0)). rewrite <- Es, Z.sqrtrem_sqrt.
      apply Z.sqrt_nonneg. }
    destruct (binary_round_aux_sign false q eq l Hq) as [Hn Hs].
    destruct (binary_round_aux prec emax false q eq l) as [s'|s'| |s' m' e'];
      cbn [signbit] in Hs; subst; try reflexivity; discriminate.
Qed.

(** X6. [sqrt] answers with the domain error exactly when [x < 0]
    ([-inf] included, [-0.0] and NaN not), otherwise with the correctly
    rounded square root; it never raises, and a root it answers with is
    never below zero. *)
Theorem sqrt_guards_negative (P : platform) (x : float) :
  Server.sqrt P x =
  Ret (if float_lt x zero
       then "Error: Cannot calculate square root of negative number"
       else "Result: " ++ repr_float P (SFsqrt prec emax x)) /\
  is_error "Error: Cannot calculate square root of negative number" = true /\
  is_error ("Result: " ++ repr_float P (SFsqrt prec emax x)) = false /\
  (float_lt x zero = false -> float_lt (SFsqrt prec emax x) zero = false).
Proof.
  split; [|split; [reflexivity|split; [reflexivity|apply SFsqrt_not_negative]]].
  unfold Server.sqrt, math_sqrt.
  destruct (float_lt x zero); reflexivity.
Qed.

(** X7. [absolute] answers with the magnitude: the same for [x] and [-x],
    a float that is [x] or [-x], whose sign bit is clear and which is not
    below zero; on a magnitude it changes nothing. *)
Theorem absolute_is_magnitude (P : platform) (x : float) :
  Server.absolute P (float_neg x) = Server.absolute P x /\
  Server.absolute P (float_abs x) = Server.absolute P x /\
  (float_abs x = x \/ float_abs x = float_neg x) /\
  signbit (float_abs x) = false /\
  float_lt (float_abs x) zero = false.
Proof.
  unfold Server.absolute.
  destruct x as [s|s| |s m e]; repeat split; try reflexivity;
    try (destruct s; (now left) || now right).
  now left.
Qed.

(** ** [power] *)

(** X8. Whatever the base (zero, infinite or NaN), [power] with exponent
    [0.0] or [-0.0] answers 1.0; whatever the exponent, [power] with
    base 1.0 answers 1.0.  Neither call raises. *)
Theorem power_unit_cases (P : platform) :
  (forall (base : float) (s : bool),
      Server.power P base (S754_zero s)
      = Ret ("Result: " ++ repr_float P one)) /\
  (forall exponent : float,
      Server.power P one exponent = Ret ("Result: " ++ repr_float P one)).
Proof.
  split.
  - intros base s. reflexivity.
  - intros [s|s| |s m e]; try reflexivity; destruct s; reflexivity.
Qed.

(** ** [is_even], [gcd] and [lcm] *)

(** X9. Where [is_even] answers (for [n] and its neighbours below the
    cap on printed digits), consecutive integers never get the same
    answer, and [n] and [-n] get the same parity. *)
Theorem is_even_alternates (n : Z) :
  Z.abs n + 1 < 10 ^ int_max_str_digits ->
  (Server.is_even n = Ret (decimal n ++ " is even") <->
   Server.is_even (n + 1) = Ret (decimal (n + 1) ++ " is odd")) /\
  (Server.is_even n = Ret (decimal n ++ " is even") <->
   Server.is_even (- n) = Ret (decimal (- n) ++ " is even")).
Proof.
  intros Hn.
  assert (E : forall k, Z.abs k < 10 ^ int_max_str_digits ->
              (Server.is_even k = Ret (decimal k ++ " is even")
               <-> k mod 2 = 0)).
  { intros k Hk. rewrite is_even_below by exact Hk.
    destruct (Z.eqb_spec (k mod 2) 0) as [H|H]; split; intros X; try tauto.
    apply Ret_inj, append_inj_l in X. discriminate X. }
  assert (O : forall k, Z.abs k < 10 ^ int_max_str_digits ->
              (Server.is_even k = Ret (decimal k ++ " is odd")
               <-> k mod 2 <> 0)).
  { intros k Hk. rewrite is_even_below by exact Hk.
    destruct (Z.eqb_spec (k mod 2) 0) as [H|H]; split; intros X; try tauto.
    apply Ret_inj, append_inj_l in X. discriminate X. }
  rewrite !E, O by lia.
  pose proof (Z.mod_pos_bound n 2 ltac:(lia)).
  pose proof (Z.mod_pos_bound (n + 1) 2 ltac:(lia)).
  pose proof (Z.mod_pos_bound (- n) 2 ltac:(lia)).
  pose proof (Z.div_mod n 2 ltac:(lia)).
  pose proof (Z.div_mod (n + 1) 2 ltac:(lia)).
  pose proof (Z.div_mod (- n) 2 ltac:(lia)).
  lia.
Qed.

Lemma is_even_alternates_witness :
  (Server.is_even 4 = Ret (decimal 4 ++ " is even") <->
   Server.is_even (4 + 1) = Ret (decimal (4 + 1) ++ " is odd")) /\
  (Server.is_even 4 = Ret (decimal 4 ++ " is even") <->
   Server.is_even (- 4) = Ret (decimal (- 4) ++ " is even")).
Proof. apply (is_even_alternates 4). vm_compute. reflexivity. Defined.

Lemma gcd_times_lcm (a b : Z) : Z.gcd a b * Z.lcm a b = Z.abs (a * b).
Proof.
  rewrite <- math_lcm_lcm. unfold math_lcm, math_gcd.
  destruct (Z.eqb_spec a 0) as [->|Ha]; [cbn [orb]; lia|].
  destruct (Z.eqb_spec b 0) as [->|Hb];
    [cbn [orb]; rewrite Z.mul_0_r, Z.mul_0_r; reflexivity|].
  cbn [orb].
  pose proof (Z.gcd_nonneg a b) as Hg.
  destruct (Z.gcd_divide_l a b) as [x Hx].
  remember (Z.gcd a b) as g eqn:Eg.
  assert (g <> 0) by (intros ->; lia).
  assert (Ex : a / g = x) by (rewrite Hx; now apply Z.div_mul).
  rewrite Ex. clear Ex. rewrite Hx.
  transitivity (Z.abs g * Z.abs (x * b));
    [rewrite (Z.abs_eq g) by exact Hg; reflexivity|].
  rewrite <- Z.abs_mul. f_equal. ring.
Qed.

(** X10. The answers of [gcd] and [lcm] on the same pair multiply to
    [|a * b|]. *)
Theorem gcd_lcm_product (a b g l : Z) :
  Server.gcd a b = Ret ("Result: " ++ decimal g) ->
  Server.lcm a b = Ret ("Result: " ++ decimal l) ->
  g * l = Z.abs (a * b).
Proof.
  intros Hg Hl. apply gcd_ret in Hg. apply lcm_ret in Hl.
  subst g l. apply gcd_times_lcm.
Qed.

Lemma gcd_lcm_product_witness : 6 * 144 = Z.abs (48 * 18).
Proof.
  apply (gcd_lcm_product 48 18 6 144); vm_compute; reflexivity.
Defined.

(** X11. [gcd] and [lcm] do not depend on the order of their arguments nor
    on their signs. *)
Theorem gcd_lcm_symmetric (a b : Z) :
  Server.gcd a b = Server.gcd b a /\
  Server.gcd (- a) b = Server.gcd a b /\
  Server.gcd a (- b) = Server.gcd a b /\
  Server.lcm a b = Server.lcm b a /\
  Server.lcm (- a) b = Server.lcm a b /\
  Server.lcm a (- b) = Server.lcm a b.
Proof.
  unfold Server.gcd, Server.lcm, math_gcd.
  rewrite !math_lcm_lcm.
  rewrite (Z.gcd_comm b a), Z.gcd_opp_l, Z.gcd_opp_r.
  rewrite (Z.lcm_comm b a), Z.lcm_opp_l, Z.lcm_opp_r.
  repeat split.
Qed.

(** X12. [gcd] answers 0 only at [(0, 0)], and [lcm] answers 0 only when an
    argument is 0: on nonzero arguments both answers are positive. *)
Theorem gcd_lcm_zero_only (a b : Z) :
  (Server.gcd a b = Ret "Result: 0" <-> a = 0 /\ b = 0) /\
  (Server.lcm a b = Ret "Result: 0" <-> a = 0 \/ b = 0).
Proof.
  change "Result: 0" with ("Result: " ++ decimal 0).
  pose proof cap_above_floats as C.
  split; split; intros H.
  - apply gcd_ret in H. symmetry in H. now apply Z.gcd_eq_0 in H.
  - destruct H as [-> ->]. rewrite gcd_below; [reflexivity|].
    change (Z.gcd 0 0) with 0. lia.
  - apply lcm_ret in H. symmetry in H. now apply Z.lcm_eq_0 in H.
  - apply Z.lcm_eq_0 in H. rewrite lcm_below; rewrite H; [reflexivity|lia].
Qed.

(** ** The characters of printed integers *)

Lemma all_chars_app (p : ascii -> bool) (s t : string) :
  all_chars p (s ++ t) = all_chars p s && all_chars p t.
Proof.
  induction s as [|a s IH]; [reflexivity|].
  simpl. now rewrite IH, andb_assoc.
Qed.

Lemma all_chars_weaken (p q : ascii -> bool) (s : string) :
  (forall c, p c = true -> q c = true) ->
  all_chars p s = true -> all_chars q s = true.
Proof.
  intros Hpq. induction s as [|a s IH]; [reflexivity|].
  simpl. intros H. apply andb_prop in H. destruct H as [Ha Hs].
  now rewrite (Hpq a Ha), IH.
Qed.

Lemma uint_chars (d : Decimal.uint) :
  all_chars is_int_char (NilEmpty.string_of_uint d) = true.
Proof. induction d; simpl; auto. Qed.

Lemma uint_nonempty (d : Decimal.uint) :
  exists c r, NilZero.string_of_uint d = String c r.
Proof. destruct d; simpl; eauto. Qed.

Lemma uint_zero_chars (d : Decimal.uint) :
  all_chars is_int_char (NilZero.string_of_uint d) = true.
Proof. destruct d; try apply uint_chars. reflexivity. Qed.

(** A printed [int] is made of digits and the minus sign. *)
Lemma decimal_chars (n : Z) : all_chars is_int_char (decimal n) = true.
Proof.
  unfold decimal, NilZero.string_of_int.
  destruct (Z.to_int n) as [d|d]; [apply uint_zero_chars|].
  simpl. apply uint_zero_chars.
Qed.

(** It is not empty. *)
Lemma decimal_nonempty (n : Z) :
  exists c r, decimal n = String c r /\ is_int_char c = true.
Proof.
  pose proof (decimal_chars n) as H.
  unfold decimal, NilZero.string_of_int in *.
  destruct (Z.to_int n) as [d|d].
  - destruct (uint_nonempty d) as (c & r & E). rewrite E in *.
    exists c, r. split; [reflexivity|]. simpl in H.
    now apply andb_prop in H.
  - eexists _, _. split; reflexivity.
Qed.

(** No answer that starts with a printed [int] is an error string. *)
Lemma decimal_not_error (n : Z) (t : string) : is_error (decimal n ++ t) = false.
Proof.
  destruct (decimal_nonempty n) as (c & r & E & Hc). rewrite E.
  unfold is_error. cbn [append String.prefix].
  destruct (ascii_dec "E" c) as [<-|]; [discriminate Hc|reflexivity].
Qed.

(** A pattern whose first character is no digit and no minus sign is
    found in [decimal n ++ t] only inside [t]. *)
Lemma contains_skip (p : ascii -> bool) (c : ascii) (pat s t : string) :
  p c = false -> all_chars p s = true ->
  contains (String c pat) (s ++ t) = contains (String c pat) t.
Proof.
  intros Hc. induction s as [|a s IH]; [reflexivity|].
  cbn [all_chars]. intros H. apply andb_prop in H. destruct H as [Ha Hs].
  cbn [append contains String.prefix].
  destruct (ascii_dec c a) as [->|]; [congruence|].
  now apply IH.
Qed.

Lemma append_inj_last (s t : string) (c : ascii) :
  s ++ String c "" = t ++ String c "" -> s = t.
Proof.
  revert t. induction s as [|a s IH]; intros [|b t] H; simpl in H.
  - reflexivity.
  - injection H as _ H. destruct t; discriminate H.
  - injection H as _ H. destruct s; discriminate H.
  - injection H as -> H. f_equal. now apply IH.
Qed.

(** ** More on [is_prime] *)

(** The digits that a call of [str] in front of the goal returns. *)
Ltac open_str :=
  match goal with
  | |- context [bind (str ?k) _] =>
      let s := fresh "s" in
      let E := fresh "E" in
      destruct (str k) as [s|] eqn:E; cbn [bind]; [|discriminate];
      apply str_ret in E; destruct E as [-> _]
  end.

(** X13. Below 2 [is_prime] answers with the error that names [n],
    unless [n] has more than 4300 digits, when formatting it raises
    [ValueError]; from 2 on, whatever it answers is not an error; an even
    [n] above 2 is answered ["n is not prime"] without a square root
    being taken, so also past the float range where an odd [n]
    overflows, up to the same cap of 4300 digits. *)
Theorem is_prime_domain (n : Z) :
  (- 10 ^ int_max_str_digits < n < 2 ->
   Server.is_prime n
   = Ret ("Error: " ++ decimal n
          ++ " is less than 2. Primality is only defined for integers >= 2"))
  /\ (n <= - 10 ^ int_max_str_digits ->
      Server.is_prime n = Raise ValueError)
  /\ (2 <= n ->
      forall out : string,
        Server.is_prime n = Ret out -> is_error out = false)
  /\ (2 < n < 10 ^ int_max_str_digits -> n mod 2 = 0 ->
      Server.is_prime n = Ret (decimal n ++ " is not prime"))
  /\ (10 ^ int_max_str_digits <= n -> n mod 2 = 0 ->
      Server.is_prime n = Raise ValueError).
Proof.
  pose proof cap_above_floats as C.
  split; [|split; [|split; [|split]]].
  - apply is_prime_below_2.
  - intros Hn. unfold Server.is_prime.
    destruct (Z.ltb_spec n 2); [|lia]. now rewrite str_from by lia.
  - intros Hn out. unfold Server.is_prime.
    destruct (Z.ltb_spec n 2); [lia|].
    destruct (n =? 2);
      [open_str; intros [= <-]; apply decimal_not_error|].
    destruct (n mod 2 =? 0);
      [open_str; intros [= <-]; apply decimal_not_error|].
    destruct (math_sqrt_int n) as [root|]; [|discriminate].
    cbn [bind]. destruct (int_of_float root) as [bound|]; [|discriminate].
    cbn [bind].
    destruct (first_in_range _ _ _ _); repeat open_str;
      intros [= <-]; apply decimal_not_error.
  - apply is_prime_even.
  - intros Hn He. unfold Server.is_prime.
    destruct (Z.ltb_spec n 2); [lia|].
    destruct (Z.eqb_spec n 2); [lia|].
    rewrite He. cbn [Z.eqb]. now rewrite str_from by lia.
Qed.

(** X14. For [2 <= n < 2^52], the divisor that [is_prime] names is the least
    divisor of [n] above 1, and so a prime. *)
Theorem is_prime_names_least_prime_factor (n i : Z) :
  2 <= n < 2 ^ 52 ->
  Server.is_prime n
  = Ret (decimal n ++ " is not prime (divisible by " ++ decimal i ++ ")") ->
  Z.prime i /\ (i | n) /\ i * i <= n /\
  forall d : Z, 1 < d -> (d | n) -> i <= d.
Proof.
  intros Hn E.
  pose proof (root_bound_exact n ltac:(lia)) as Hr.
  unfold root_bound in Hr.
  destruct (math_sqrt_int n) as [root|] eqn:Hroot; [|discriminate Hr].
  cbn [bind] in Hr.
  assert (Hb : Z.sqrt n <= Z.sqrt n < n)
    by (split; [lia|apply Z.sqrt_lt_lin; lia]).
  destruct (is_prime_decides_given_root n root (Z.sqrt n)
              ltac:(lia) Hroot Hr Hb)
    as [[_ E'] | [(_ & _ & E') | (_ & Ho & i' & Hi & Di & Hmin & E')]];
    rewrite E' in E; injection E as E; apply append_inj_l in E.
  - discriminate E.
  - discriminate E.
  - apply (append_inj_l " is not prime (divisible by ") in E.
    apply append_inj_last, decimal_inj in E. subst i'.
    assert (Hleast : forall d : Z, 1 < d -> (d | n) -> i <= d).
    { intros d Hd Dd.
      destruct (Z_le_gt_dec i d) as [|Hlt]; [assumption|exfalso].
      pose proof (odd_divisor n d ltac:(lia) Dd) as Od.
      assert (d <> 2) by (intros ->; discriminate Od).
      apply (Hmin d); [lia|exact Od|exact Dd]. }
    split; [|split; [exact Di|split; [|exact Hleast]]].
    + split; [lia|]. intros e He De.
      specialize (Hleast e ltac:(lia) (Z.divide_trans _ _ _ De Di)). lia.
    + destruct Di as [q Hq].
      assert (1 < q) by nia.
      specialize (Hleast q ltac:(lia)
                         ltac:(exists i; lia)). nia.
Qed.

Lemma is_prime_names_least_prime_factor_witness :
  Z.prime 7 /\ (7 | 49) /\ 7 * 7 <= 49 /\
  forall d : Z, 1 < d -> (d | 49) -> 7 <= d.
Proof.
  apply (is_prime_names_least_prime_factor 49 7).
  - lia.
  - vm_compute. reflexivity.
Defined.

(** ** The check of the test client *)

(** The fixed words of the composite and error answers do not contain
    the pattern, whatever follows them. *)
Lemma contains_after_composite (t : string) :
  contains "is prime" (" is not prime (divisible by " ++ t)
  = contains "is prime" t.
Proof. reflexivity. Qed.

Lemma contains_after_error (t : string) :
  contains "is prime" ("Error: " ++ t) = contains "is prime" t.
Proof. reflexivity. Qed.

(** X15. Whatever [is_prime] answers, the test of the client,
    ["is prime" in text], accepts it exactly when it is the verdict
    ["n is prime"]: no error and no composite answer contains the
    words. *)
Theorem client_accepts_prime_verdict (n : Z) (text : string) :
  Server.is_prime n = Ret text ->
  (TestClient.accepts_prime text = true <-> text = decimal n ++ " is prime").
Proof.
  assert (Hi : is_int_char "i" = false) by reflexivity.
  assert (Skip : forall (m : Z) (t : string),
             contains "is prime" (decimal m ++ t) = contains "is prime" t)
    by (intros m t; apply (contains_skip is_int_char), decimal_chars; exact Hi).
  assert (No : forall t : string,
             contains "is prime" t = false -> t <> " is prime" ->
             TestClient.accepts_prime (decimal n ++ t) = true <->
             decimal n ++ t = decimal n ++ " is prime").
  { intros t Ht Hne. unfold TestClient.accepts_prime. rewrite Skip, Ht.
    split; [discriminate|]. intros H. apply append_inj_l in H. contradiction. }
  unfold Server.is_prime.
  destruct (n <? 2).
  { open_str. intros H; apply Ret_inj in H; subst text.
    unfold TestClient.accepts_prime.
    rewrite contains_after_error, Skip.
    split; [discriminate|]. intros H. exfalso.
    pose proof (decimal_not_error n " is prime") as H1.
    rewrite <- H in H1. discriminate H1. }
  destruct (n =? 2).
  { open_str. intros H; apply Ret_inj in H; subst text.
    unfold TestClient.accepts_prime. rewrite Skip.
    split; reflexivity. }
  destruct (n mod 2 =? 0).
  { open_str. intros H; apply Ret_inj in H; subst text.
    apply No; [reflexivity|discriminate]. }
  destruct (math_sqrt_int n) as [root|]; [|discriminate].
  cbn [bind]. destruct (int_of_float root) as [bound|]; [|discriminate].
  cbn [bind].
  destruct (first_in_range _ _ _ _) as [i|]; repeat open_str;
    intros H; apply Ret_inj in H; subst text.
  - apply No; [|discriminate].
    rewrite contains_after_composite, Skip. reflexivity.
  - unfold TestClient.accepts_prime. rewrite Skip. split; reflexivity.
Qed.

(** ** Rounding a long mantissa *)

(** Shifting a mantissa of 53 bits or more onto its canonical exponent
    divides it by the power of two it is shifted by. *)
Lemma shr_fexp_value (m : positive) (e : Z) (l : location) :
  53 <= Zpos (digits2_pos m) ->
  -1021 <= Zpos (digits2_pos m) + e ->
  shr_m (fst (shr_fexp prec emax (Zpos m) e l))
  = Zpos m / 2 ^ (Zpos (digits2_pos m) - 53).
Proof.
  intros HD He.
  remember (Zpos (digits2_pos m)) as D eqn:ED.
  unfold shr_fexp. cbn [Zdigits2]. rewrite <- ED, fexp_normal by lia.
  replace (D + e - 53 - e) with (D - 53) by lia.
  assert (M0 : shr_m (shr_record_of_loc (Zpos m) l) = Zpos m)
    by (destruct l as [|[| |]]; reflexivity).
  destruct (D - 53) as [|k|k] eqn:Ek; try lia; cbn [shr fst snd].
  - now rewrite M0, Z.div_1_r.
  - rewrite iter_pos_nat, shr_iter_half by (rewrite M0; lia).
    now rewrite M0, positive_nat_Z.
Qed.

Lemma round_nearest_even_step (m : Z) (l : location) :
  round_nearest_even m l = m \/ round_nearest_even m l = m + 1.
Proof.
  destruct l as [|[| |]]; cbn [round_nearest_even]; auto.
  destruct (Z.even m); auto.
Qed.

(** Rounding a mantissa [q] of [53 + j] bits gives one of the two
    multiples of [2^j] around [q]: with [k] the number of bits that the
    exponent went up by, the mantissa of the result times [2^k] is
    [q / 2^j * 2^j] or [(q / 2^j + 1) * 2^j]. *)
Lemma binary_round_aux_neighbours
      (s : bool) (q : positive) (e : Z) (l : location) (j : Z) :
  j = Zpos (digits2_pos q) - 53 ->
  0 <= j ->
  -1021 <= Zpos (digits2_pos q) + e ->
  e + j + 1 <= emax - prec ->
  exists (mf : positive) (k : Z),
    binary_round_aux prec emax s (Zpos q) e l = S754_finite s mf (e + k) /\
    j <= k <= j + 1 /\
    (Zpos mf * 2 ^ k = Zpos q / 2 ^ j * 2 ^ j \/
     Zpos mf * 2 ^ k = (Zpos q / 2 ^ j + 1) * 2 ^ j).
Proof.
  intros Ej Hj He Hmax. unfold binary_round_aux.
  pose proof (shr_fexp_value q e l ltac:(lia) He) as V1.
  destruct (shr_fexp_leading q e l ltac:(lia) He) as [E1 M1].
  rewrite <- Ej in V1, E1.
  destruct (shr_fexp prec emax (Zpos q) e l) as [mrs' e'].
  cbn [fst snd] in V1, E1, M1.
  remember (Zpos q / 2 ^ j) as m1 eqn:Em1.
  assert (R : round_nearest_even (shr_m mrs') (loc_of_shr_record mrs') = m1
              \/ round_nearest_even (shr_m mrs') (loc_of_shr_record mrs')
                 = m1 + 1)
    by (rewrite <- V1; apply round_nearest_even_step).
  rewrite V1 in M1.
  remember (round_nearest_even (shr_m mrs') (loc_of_shr_record mrs')) as m2
    eqn:Em2.
  assert (B2 : 2 ^ 52 <= m2 <= 2 ^ 53) by lia.
  destruct m2 as [|m2|m2]; try lia.
  pose proof (digits2_pos_bounds m2) as Bd.
  remember (Zpos (digits2_pos m2)) as D2 eqn:ED2.
  assert (L2 : 53 <= D2).
  { assert (52 < D2); [|lia]. apply (Z.pow_lt_mono_r_iff 2); lia. }
  assert (U2 : D2 <= 54).
  { assert (D2 - 1 < 54); [|lia]. apply (Z.pow_lt_mono_r_iff 2); lia. }
  pose proof (shr_fexp_value m2 e' loc_Exact ltac:(lia) ltac:(lia)) as V3.
  destruct (shr_fexp_leading m2 e' loc_Exact ltac:(lia) ltac:(lia))
    as [E3 M3].
  rewrite <- ED2 in V3, E3.
  destruct (shr_fexp prec emax (Zpos m2) e' loc_Exact) as [mrs'' e''].
  cbn [fst snd] in V3, E3, M3.
  assert (P3 : Zpos m2 = shr_m mrs'' * 2 ^ (D2 - 53)).
  { rewrite V3. destruct (Z.eq_dec D2 53) as [->|].
    - change (2 ^ (53 - 53)) with 1. now rewrite Z.div_1_r, Z.mul_1_r.
    - replace D2 with 54 in * by lia.
      assert (Zpos m2 = 2 ^ 53) as -> by (simpl Z.sub in Bd; lia).
      reflexivity. }
  destruct (shr_m mrs'') as [|m3|m3]; try lia.
  destruct (Z.leb_spec e'' (emax - prec)) as [_|Hgt]; [|lia].
  exists m3, (j + (D2 - 53)).
  split; [f_equal; lia|]. split; [lia|].
  rewrite Z.pow_add_r by lia.
  replace (Zpos m3 * (2 ^ j * 2 ^ (D2 - 53)))
    with (Zpos m3 * 2 ^ (D2 - 53) * 2 ^ j) by ring.
  rewrite <- P3. destruct R as [->| ->]; auto.
Qed.

(** ** Integer division by a million *)

Lemma div_eucl_pair (a b : Z) : Z.div_eucl a b = (a / b, a mod b).
Proof. unfold Z.div, Z.modulo. now destruct (Z.div_eucl a b). Qed.

(** The quotient of an [int] below [2^52] by [10^6], as a float, has the
    whole quotient as its integer part. *)
Lemma int_truediv_million (s : bool) (p : positive) :
  Zpos p < 2 ^ 52 ->
  exists (mf : positive) (ef : Z),
    (let '(q, e, l) := SFdiv_core_binary prec emax (Zpos p) 0 1000000 0 in
     binary_round_aux prec emax s q e l) = S754_finite s mf ef /\
    Z.shiftl (Zpos mf) ef = Zpos p / 1000000.
Proof.
  intros Hp.
  pose proof (digits2_pos_bounds p) as Bp.
  remember (Zpos (digits2_pos p)) as d eqn:Ed.
  assert (D0 : 0 < d) by lia.
  assert (Hd : d <= 52).
  { assert (d - 1 < 52); [|lia]. apply (Z.pow_lt_mono_r_iff 2); lia. }
  unfold SFdiv_core_binary. cbn [Zdigits2]. rewrite <- Ed.
  change (Zpos (digits2_pos 1000000)) with 20.
  rewrite fexp_normal by lia.
  replace (Z.min (d + 0 - (20 + 0) - 53) (0 - 0)) with (d - 73) by lia.
  replace (0 - 0 - (d - 73)) with (73 - d) by lia.
  destruct (73 - d) as [|sh|sh] eqn:Esh; try lia.
  rewrite <- Esh, Z.shiftl_mul_pow2, div_eucl_pair by lia.
  remember (2 ^ (73 - d)) as T eqn:ET.
  assert (T21 : 2 ^ 21 <= T) by (subst T; apply Z.pow_le_mono_r; lia).
  assert (TT : 2 ^ (d - 1) * T = 2 ^ 72 /\ 2 ^ d * T = 2 ^ 73).
  { subst T. rewrite <- !Z.pow_add_r by lia. split; f_equal; lia. }
  destruct TT as [TT1 TT2].
  remember (Zpos p / 1000000) as K eqn:EK.
  pose proof (Z.div_mod (Zpos p) 1000000 ltac:(lia)) as DK.
  pose proof (Z.mod_pos_bound (Zpos p) 1000000 ltac:(lia)) as BK.
  rewrite <- EK in DK.
  remember (Zpos p * T / 1000000) as q eqn:Eq.
  pose proof (Z.div_mod (Zpos p * T) 1000000 ltac:(lia)) as Dq.
  pose proof (Z.mod_pos_bound (Zpos p * T) 1000000 ltac:(lia)) as Bq.
  rewrite <- Eq in Dq.
  assert (Q52 : 2 ^ 52 <= q < 2 ^ 54).
  { assert (2 ^ 72 <= Zpos p * T < 2 ^ 73) by nia.
    change (2 ^ 72) with (2 ^ 52 * 1048576) in *.
    change (2 ^ 73) with (2 ^ 54 * 524288) in *. lia. }
  assert (QK : K * T <= q /\ q + 2 < (K + 1) * T) by nia.
  destruct q as [|q|q]; try lia.
  pose proof (digits2_pos_bounds q) as Bd.
  remember (Zpos (digits2_pos q)) as D eqn:ED.
  assert (LD : 53 <= D).
  { assert (52 < D); [|lia]. apply (Z.pow_lt_mono_r_iff 2); lia. }
  assert (UD : D <= 54).
  { assert (D - 1 < 54); [|lia]. apply (Z.pow_lt_mono_r_iff 2); lia. }
  destruct (binary_round_aux_neighbours s q (d - 73)
              (new_location 1000000 (Zpos p * T mod 1000000)) (D - 53))
    as (mf & k & E & Hk & V);
    [lia|lia|lia|unfold emax, prec; lia|].
  exists mf, (d - 73 + k). split; [exact E|].
  replace (d - 73 + k) with (- (73 - d - k)) by lia.
  rewrite Z.shiftl_opp_r, Z.shiftr_div_pow2 by lia.
  assert (P2 : 0 < 2 ^ k) by (apply Z.pow_pos_nonneg; lia).
  assert (P3 : 0 < 2 ^ (73 - d - k)) by (apply Z.pow_pos_nonneg; lia).
  assert (TK : T = 2 ^ (73 - d - k) * 2 ^ k)
    by (subst T; rewrite <- Z.pow_add_r by lia; f_equal; lia).
  assert (J : 0 < 2 ^ (D - 53) <= 2).
  { destruct (Z.eq_dec D 53) as [->|]; [simpl; lia|].
    replace D with 54 by lia. simpl. lia. }
  pose proof (Z.div_mod (Zpos q) (2 ^ (D - 53)) ltac:(lia)) as Dj.
  pose proof (Z.mod_pos_bound (Zpos q) (2 ^ (D - 53)) ltac:(lia)) as Bj.
  assert (TJ : exists c, T = c * 2 ^ (D - 53)).
  { exists (2 ^ (73 - d - (D - 53))). subst T.
    rewrite <- Z.pow_add_r by lia. f_equal. lia. }
  destruct TJ as [c Hc].
  remember (Zpos q / 2 ^ (D - 53)) as qj eqn:Eqj.
  remember (2 ^ (D - 53)) as tj eqn:Etj.
  assert (VB : K * T <= Zpos mf * 2 ^ k < (K + 1) * T).
  { assert (K * c <= qj).
    { assert (K * c * tj < (qj + 1) * tj) by nia.
      assert (K * c < qj + 1) by nia. lia. }
    destruct V as [V|V]; rewrite V; nia. }
  remember (2 ^ k) as tk eqn:Etk.
  remember (2 ^ (73 - d - k)) as tr eqn:Etr.
  symmetry. apply (Z.div_unique_pos _ _ _ (Zpos mf - K * tr)); nia.
Qed.

(** ** The health check *)

(** The fields of a [timedelta] add up to the microseconds it was made
    from. *)
Lemma timedelta_total (us : Z) :
  (days (timedelta_of_microseconds us) * 86400
   + seconds (timedelta_of_microseconds us)) * 1000000
  + microseconds (timedelta_of_microseconds us) = us.
Proof.
  cbn [timedelta_of_microseconds days seconds microseconds].
  pose proof (Z.div_mod us 86400000000 ltac:(lia)) as D1.
  pose proof (Z.div_mod (us mod 86400000000) 1000000 ltac:(lia)) as D2.
  assert (E : us mod 1000000 = (us mod 86400000000) mod 1000000).
  { rewrite D1 at 1.
    replace (86400000000 * (us / 86400000000) + us mod 86400000000)
      with (us mod 86400000000 + (86400 * (us / 86400000000)) * 1000000)
      by ring.
    apply Z_mod_plus_full. }
  lia.
Qed.

Lemma timedelta_normal (us : Z) :
  0 <= seconds (timedelta_of_microseconds us) < 86400 /\
  0 <= microseconds (timedelta_of_microseconds us) < 1000000.
Proof.
  cbn [timedelta_of_microseconds seconds microseconds].
  pose proof (Z.mod_pos_bound us 86400000000 ltac:(lia)).
  pose proof (Z.mod_pos_bound us 1000000 ltac:(lia)).
  pose proof (Z.div_mod (us mod 86400000000) 1000000 ltac:(lia)).
  pose proof (Z.mod_pos_bound (us mod 86400000000) 1000000 ltac:(lia)).
  lia.
Qed.

(** [total_seconds], truncated by [int]: the whole seconds, rounded
    towards zero, for a span of less than [2^52] microseconds either
    way. *)
Lemma whole_seconds (us : Z) :
  Z.abs us < 2 ^ 52 ->
  (total <- total_seconds (timedelta_of_microseconds us) ;;
   int_of_float total) = Ret (Z.quot us 1000000).
Proof.
  intros Hus. unfold total_seconds. rewrite timedelta_total.
  unfold int_truediv. change (1000000 =? 0) with false.
  change (1000000 <? 0) with false. rewrite xorb_false_r.
  destruct us as [|p|p].
  - reflexivity.
  - change (Zpos p =? 0) with false. change (Zpos p <? 0) with false.
    cbn [Z.abs].
    destruct (int_truediv_million false p Hus) as (mf & ef & E & V).
    destruct (SFdiv_core_binary prec emax (Zpos p) 0 1000000 0) as [[q e] l].
    rewrite E. cbn [bind int_of_float cond_Zopp]. rewrite V.
    now rewrite Z.quot_div_nonneg by lia.
  - change (Zneg p =? 0) with false. change (Zneg p <? 0) with true.
    cbn [Z.abs].
    destruct (int_truediv_million true p Hus) as (mf & ef & E & V).
    destruct (SFdiv_core_binary prec emax (Zpos p) 0 1000000 0) as [[q e] l].
    rewrite E. cbn [bind int_of_float cond_Zopp]. rewrite V.
    change (Zneg p) with (- Zpos p).
    now rewrite Z.quot_opp_l, Z.quot_div_nonneg by lia.
Qed.

(** X16. While the clock is within [2^52] microseconds (some 142 years) of
    the start, before or after, [health_check] does not raise, and
    [uptime_seconds] is the elapsed time in whole seconds, rounded
    towards zero. *)
Theorem health_check_uptime_seconds (start now : datetime) (iso : string) :
  Z.abs (now - start) < 2 ^ 52 ->
  Health.health_check start now iso
  = Ret {| Health.status := "healthy";
           Health.server := "mcp-math-server";
           Health.uptime :=
             before "." (str_timedelta (datetime_sub now start));
           Health.uptime_seconds := Z.quot (now - start) 1000000;
           Health.timestamp := iso |}.
Proof.
  intros H. unfold Health.health_check, datetime_sub.
  pose proof (whole_seconds (now - start) H) as W.
  destruct (total_seconds (timedelta_of_microseconds (now - start)))
    as [total|]; [|discriminate W].
  cbn [bind] in *. rewrite W. reflexivity.
Qed.

Lemma health_check_uptime_seconds_witness :
  Health.health_check 1000000 90124999999 "2024-01-01T00:00:00"
  = Ret {| Health.status := "healthy";
           Health.server := "mcp-math-server";
           Health.uptime :=
             before "." (str_timedelta (datetime_sub 90124999999 1000000));
           Health.uptime_seconds := Z.quot (90124999999 - 1000000) 1000000;
           Health.timestamp := "2024-01-01T00:00:00" |}.
Proof.
  apply (health_check_uptime_seconds 1000000 90124999999). reflexivity.
Defined.

(** *** The uptime string *)

Lemma int_char_not_dot (c : ascii) : is_int_char c = true -> not_dot c = true.
Proof.
  destruct c as [[] [] [] [] [] [] [] []]; intros H;
    try reflexivity; discriminate H.
Qed.

Lemma decimal_no_dot (n : Z) : all_chars not_dot (decimal n) = true.
Proof.
  apply (all_chars_weaken is_int_char); [apply int_char_not_dot|].
  apply decimal_chars.
Qed.

Lemma zeros_no_dot (k : nat) :
  all_chars not_dot (string_of_list_ascii (repeat "0"%char k)) = true.
Proof. induction k; [reflexivity|exact IHk]. Qed.

Lemma zero_pad_no_dot (w : nat) (n : Z) :
  all_chars not_dot (zero_pad w n) = true.
Proof.
  unfold zero_pad. now rewrite all_chars_app, zeros_no_dot, decimal_no_dot.
Qed.

(** Splitting at the first dot returns a string without dots whole, and
    drops what follows it otherwise. *)
Lemma before_dot (s t : string) :
  all_chars not_dot s = true ->
  before "." s = s /\ before "." (s ++ "." ++ t) = s.
Proof.
  induction s as [|a s IH]; [split; reflexivity|].
  cbn [all_chars]. intros H. apply andb_prop in H. destruct H as [Ha Hs].
  destruct (IH Hs) as [I1 I2].
  change (String a s ++ "." ++ t) with (String a (s ++ "." ++ t)).
  cbn [before]. unfold not_dot in Ha.
  destruct (Ascii.eqb a "."); [discriminate Ha|].
  now rewrite I1, I2.
Qed.

Lemma before_no_dot (s : string) : all_chars not_dot (before "." s) = true.
Proof.
  induction s as [|a s IH]; [reflexivity|].
  cbn [before]. destruct (Ascii.eqb a ".") eqn:E; [reflexivity|].
  cbn [all_chars]. rewrite IH. unfold not_dot. now rewrite E.
Qed.

(** [str] of a [timedelta], cut at the dot, is [str] of it with the
    microseconds set to zero. *)
Lemma str_timedelta_before_dot (td : timedelta) :
  before "." (str_timedelta td) = str_timedelta (without_microseconds td).
Proof.
  unfold str_timedelta, without_microseconds.
  cbn [days seconds microseconds]. change (0 =? 0) with true. cbv iota.
  set (base := decimal (seconds td / 60 / 60) ++ ":"
               ++ zero_pad 2 (seconds td / 60 mod 60) ++ ":"
               ++ zero_pad 2 (seconds td mod 60)).
  assert (Hb : all_chars not_dot base = true).
  { unfold base.
    now rewrite !all_chars_app, decimal_no_dot, !zero_pad_no_dot. }
  set (full := if days td =? 0 then base
               else decimal (days td) ++ " day"
                    ++ (if Z.abs (days td) =? 1 then "" else "s")
                    ++ ", " ++ base).
  assert (Hf : all_chars not_dot full = true).
  { unfold full. destruct (days td =? 0); [exact Hb|].
    rewrite !all_chars_app, decimal_no_dot, Hb.
    now destruct (Z.abs (days td) =? 1). }
  destruct (before_dot full (zero_pad 6 (microseconds td)) Hf) as [B1 B2].
  now destruct (microseconds td =? 0).
Qed.

(** X17. Whenever [health_check] answers, its [uptime] is the elapsed time
    printed as a [timedelta] without its microseconds, and contains no
    dot; the status and the server name are the fixed ones. *)
Theorem health_check_drops_microseconds
        (start now : datetime) (iso : string) (h : Health.health_status) :
  Health.health_check start now iso = Ret h ->
  Health.uptime h
  = str_timedelta (without_microseconds (datetime_sub now start)) /\
  all_chars not_dot (Health.uptime h) = true /\
  Health.status h = "healthy" /\
  Health.server h = "mcp-math-server" /\
  Health.timestamp h = iso.
Proof.
  unfold Health.health_check.
  destruct (total_seconds (datetime_sub now start)) as [total|];
    [|discriminate].
  cbn [bind]. destruct (int_of_float total) as [secs|]; [|discriminate].
  cbn [bind]. intros H. apply Ret_inj in H. subst h.
  cbn [Health.uptime Health.status Health.server Health.timestamp].
  rewrite str_timedelta_before_dot.
  split; [reflexivity|]. split; [|repeat split].
  rewrite <- str_timedelta_before_dot. apply before_no_dot.
Qed.

Lemma health_check_drops_microseconds_witness :
  "1 day, 1:02:03"
  = str_timedelta (without_microseconds (datetime_sub 90124999999 1000000)) /\
  all_chars not_dot "1 day, 1:02:03" = true /\
  "healthy" = "healthy" /\
  "mcp-math-server" = "mcp-math-server" /\
  "2024-01-01T00:00:00" = "2024-01-01T00:00:00".
Proof.
  apply (health_check_drops_microseconds 1000000 90124999999
           "2024-01-01T00:00:00"
           {| Health.status := "healthy";
              Health.server := "mcp-math-server";
              Health.uptime := "1 day, 1:02:03";
              Health.uptime_seconds := 90123;
              Health.timestamp := "2024-01-01T00:00:00" |}).
  reflexivity.
Defined.

(** X18. While the clock has not gone back and less than [2^52]
    microseconds have passed, the two uptime fields agree: the string is
    the printing of [d] days and [s] seconds, and [uptime_seconds] is
    [d * 86400 + s]. *)
Theorem health_check_fields_agree (start now : datetime) (iso : string) :
  0 <= now - start < 2 ^ 52 ->
  exists d s : Z,
    0 <= d /\ 0 <= s < 86400 /\
    Health.health_check start now iso
    = Ret {| Health.status := "healthy";
             Health.server := "mcp-math-server";
             Health.uptime :=
               str_timedelta {| days := d; seconds := s; microseconds := 0 |};
             Health.uptime_seconds := d * 86400 + s;
             Health.timestamp := iso |}.
Proof.
  intros H.
  exists (days (datetime_sub now start)), (seconds (datetime_sub now start)).
  pose proof (timedelta_total (now - start)) as T.
  destruct (timedelta_normal (now - start)) as [Ns Nu].
  unfold datetime_sub.
  remember (timedelta_of_microseconds (now - start)) as td eqn:Etd.
  assert (D0 : 0 <= days td)
    by (subst td; cbn [days timedelta_of_microseconds];
        apply Z.div_pos; lia).
  split; [exact D0|]. split; [exact Ns|].
  unfold Health.health_check, datetime_sub. rewrite <- Etd.
  pose proof (whole_seconds (now - start) ltac:(lia)) as W.
  rewrite <- Etd in W.
  destruct (total_seconds td) as [total|]; [|discriminate W].
  cbn [bind] in *. rewrite W. cbn [bind].
  rewrite str_timedelta_before_dot. unfold without_microseconds.
  do 2 f_equal.
  rewrite Z.quot_div_nonneg by lia.
  symmetry. apply (Z.div_unique_pos _ _ _ (microseconds td)); lia.
Qed.

Lemma health_check_fields_agree_witness :
  exists d s : Z,
    0 <= d /\ 0 <= s < 86400 /\
    Health.health_check 1000000 90124999999 "2024-01-01T00:00:00"
    = Ret {| Health.status := "healthy";
             Health.server := "mcp-math-server";
             Health.uptime :=
               str_timedelta {| days := d; seconds := s; microseconds := 0 |};
             Health.uptime_seconds := d * 86400 + s;
             Health.timestamp := "2024-01-01T00:00:00" |}.
Proof.
  apply (health_check_fields_agree 1000000 90124999999). lia.
Defined.

(** ** Square roots of perfect squares *)

(** The bit length of a square. *)
Lemma digits_of_square (k p : positive) :
  Zpos p = Zpos k * Zpos k ->
  (Zpos (digits2_pos p) + 1) / 2 = Zpos (digits2_pos k).
Proof.
  intros E.
  pose proof (digits2_pos_bounds k) as Bk.
  pose proof (digits2_pos_bounds p) as Bp.
  remember (Zpos (digits2_pos k)) as dk eqn:Edk.
  remember (Zpos (digits2_pos p)) as d eqn:Ed.
  assert (K0 : 0 < dk) by lia. assert (D0 : 0 < d) by lia.
  assert (L : 2 ^ (2 * dk - 2) <= Zpos p).
  { replace (2 * dk - 2) with ((dk - 1) + (dk - 1)) by lia.
    rewrite Z.pow_add_r by lia. nia. }
  assert (U : Zpos p < 2 ^ (2 * dk)).
  { replace (2 * dk) with (dk + dk) by lia.
    rewrite Z.pow_add_r by lia. nia. }
  assert (2 * dk - 2 < d) by (apply (Z.pow_lt_mono_r_iff 2); lia).
  assert (d - 1 < 2 * dk) by (apply (Z.pow_lt_mono_r_iff 2); lia).
  halve (d + 1). lia.
Qed.

(** X19. [sqrt] of a perfect square is exact: called with the [int]
    [k * k], for [0 < k < 2^26], it answers with the float [k]. *)
Theorem sqrt_perfect_square (P : platform) (k : Z) :
  0 < k < 2 ^ 26 ->
  (x <- float_of_int (k * k) ;; Server.sqrt P x)
  = (y <- float_of_int k ;; Ret ("Result: " ++ repr_float P y)).
Proof.
  intros Hk. destruct k as [|k|k]; try lia.
  assert (Hp : 0 < Zpos k * Zpos k < 2 ^ 52).
  { change (2 ^ 52) with (2 ^ 26 * 2 ^ 26). nia. }
  destruct (Zpos k * Zpos k) as [|p|p] eqn:Ep; try lia.
  symmetry in Ep.
  pose proof (digits_of_square k p Ep) as Hd.
  pose proof (digits2_pos_bounds k) as Bk.
  pose proof (digits2_pos_bounds p) as Bp.
  remember (Zpos (digits2_pos k)) as dk eqn:Edk.
  remember (Zpos (digits2_pos p)) as d eqn:Ed.
  assert (K0 : 0 < dk) by lia. assert (D0 : 0 < d) by lia.
  assert (Hd52 : d <= 52).
  { assert (d - 1 < 52); [|lia]. apply (Z.pow_lt_mono_r_iff 2); lia. }
  assert (Hk26 : dk <= 26).
  { assert (dk - 1 < 26); [|lia]. apply (Z.pow_lt_mono_r_iff 2); lia. }
  destruct (float_of_int_exact p ltac:(lia)) as (m & Hm & Dm & Ef).
  destruct (float_of_int_exact k ltac:(lia)) as (mk & Hmk & Dmk & Efk).
  rewrite <- Ed in Hm, Ef. rewrite <- Edk in Hmk, Efk.
  rewrite Ef, Efk. cbn [bind].
  unfold Server.sqrt.
  change (float_lt (S754_finite false m (d - 53)) zero) with false.
  cbv iota. unfold math_sqrt.
  change (float_lt (S754_finite false m (d - 53)) zero) with false.
  cbn [bind]. unfold SFsqrt.
  pose proof (sqrt_core p m) as Hc. cbv zeta in Hc. rewrite <- Ed in Hc.
  rewrite Hc by assumption. clear Hc.
  rewrite Hd.
  remember (2 ^ (53 - dk)) as T eqn:ET.
  assert (T0 : 0 < T) by (subst T; apply Z.pow_pos_nonneg; lia).
  replace (Zpos p * (T * T)) with ((Zpos k * T) * (Zpos k * T))
    by (rewrite Ep; ring).
  rewrite Z.sqrt_square by lia.
  rewrite Z.sub_diag. change (0 =? 0) with true. cbv iota.
  rewrite <- Hmk.
  rewrite binary_round_aux_canonical.
  - cbn [round_nearest_even Z.to_pos].
    replace (- (53 - dk)) with (dk - 53) by lia. reflexivity.
  - rewrite Dmk, fexp_normal by lia. lia.
  - cbn [round_nearest_even Zdigits2]. rewrite Dmk, fexp_normal by lia. lia.
  - unfold emax, prec. lia.
Qed.

Lemma sqrt_perfect_square_witness :
  (x <- float_of_int (4 * 4) ;; Server.sqrt table_platform x)
  = (y <- float_of_int 4 ;; Ret ("Result: " ++ repr_float table_platform y)).
Proof. apply (sqrt_perfect_square table_platform 4). lia. Defined.

(** ** The recurrence of [factorial] *)

Lemma product_upto_divisible (t : nat) (k : Z) :
  1 <= k <= Z.of_nat t -> (k | product_upto t).
Proof.
  induction t as [|t IH]; [lia|]. intros Hk.
  change (product_upto (S t)) with (Z.of_nat (S t) * product_upto t).
  destruct (Z.eq_dec k (Z.of_nat (S t))) as [->|].
  - apply Z.divide_factor_l.
  - apply Z.divide_mul_r, IH. lia.
Qed.

(** X20. Where [factorial] answers for [n] and for [n + 1], its answers
    obey the recurrence [(n + 1)! = (n + 1) * n!], and the answer for
    [n] is a multiple of every integer from 1 to [n]. *)
Theorem factorial_recurrence (n v w : Z) :
  0 <= n ->
  Server.factorial n = Ret ("Result: " ++ decimal v) ->
  Server.factorial (n + 1) = Ret ("Result: " ++ decimal w) ->
  w = (n + 1) * v /\
  forall k : Z, 1 <= k <= n -> (k | v).
Proof.
  intros Hn Ev Ew.
  apply factorial_ret in Ev; [|lia]. apply factorial_ret in Ew; [|lia].
  subst v w. split.
  - replace (Z.to_nat (n + 1)) with (S (Z.to_nat n)) by lia.
    change (product_upto (S (Z.to_nat n)))
      with (Z.of_nat (S (Z.to_nat n)) * product_upto (Z.to_nat n)).
    f_equal. lia.
  - intros k Hk. apply product_upto_divisible. lia.
Qed.

Lemma factorial_recurrence_witness :
  720 = (5 + 1) * 120 /\
  forall k : Z, 1 <= k <= 5 -> (k | 120).
Proof.
  apply (factorial_recurrence 5 120 720);
    [lia|vm_compute; reflexivity|vm_compute; reflexivity].
Defined.

(** ** [modulo] outside the finite floats *)

(** X21. [modulo] by an infinity leaves a finite [a] of the same sign as it
    is, answers the infinity itself when the signs differ, and a zero of
    the sign of the infinity when [a] is a zero; an infinite or NaN
    dividend, or a NaN divisor, gives NaN.  None of these calls raises. *)
Theorem modulo_infinite_operands (P : platform) :
  (forall (a : float) (sb : bool),
      is_finite a = true ->
      Server.modulo P a (S754_infinity sb)
      = Ret ("Result: "
             ++ repr_float P
                  (if float_eq a zero then S754_zero sb
                   else if Bool.eqb (signbit a) sb then a
                        else S754_infinity sb))) /\
  (forall a b : float,
      is_finite a = false \/ is_nan b = true ->
      float_eq b zero = false ->
      Server.modulo P a b = Ret ("Result: " ++ repr_float P S754_nan)).
Proof.
  split.
  - intros [s|s| |s m e] sb Fa; try discriminate Fa;
      destruct s, sb; reflexivity.
  - intros a b H Nz. unfold Server.modulo, float_rem. rewrite Nz.
    cbn [bind]. do 3 f_equal.
    destruct H as [H|H].
    + destruct a as [s|s| |s m e]; try discriminate H;
        destruct b as [sb|sb| |sb mb eb]; try discriminate Nz;
        try destruct sb; reflexivity.
    + destruct b as [sb|sb| |sb mb eb]; try discriminate H.
      destruct a as [s|s| |s m e]; reflexivity.
Qed.

(** ** Witnesses of the verdicts *)

Lemma client_accepts_prime_verdict_witness :
  TestClient.accepts_prime "17 is prime" = true <->
  "17 is prime" = decimal 17 ++ " is prime".
Proof. apply (client_accepts_prime_verdict 17). reflexivity. Defined.

Lemma is_prime_matches_reference_witness :
  (Server.is_prime 49 = Ret (decimal 49 ++ " is prime") <-> Z.prime 49) /\
  ((Z.prime 49 /\ Server.is_prime 49 = Ret (decimal 49 ++ " is prime")) \/
   (~ Z.prime 49 /\ 49 mod 2 = 0 /\
    Server.is_prime 49 = Ret (decimal 49 ++ " is not prime")) \/
   (~ Z.prime 49 /\ 49 mod 2 = 1 /\
    exists i : Z,
      3 <= i <= Z.sqrt 49 /\ (i | 49) /\
      (forall j : Z, 3 <= j < i -> j mod 2 = 1 -> ~ (j | 49)) /\
      Server.is_prime 49
      = Ret (decimal 49 ++ " is not prime (divisible by " ++ decimal i ++ ")"))).
Proof. apply (is_prime_matches_reference 49). lia. Defined.
